(** * idxs: a shallow embedding of the Index Supply client

    The development follows the two runtime modules of the package:

    - [Result]      : [src/internal/result.ts]  (row normalisation, [parse]);
    - [IndexSupply] : [src/IndexSupply.ts]      ([fetch], [live], [readStream],
                                                 [shouldRetry]).

    JavaScript strings are modelled by [string], JSON documents and decoded
    values by the inductive type [Value].  The objects the package builds
    with [o[name] = v] are modelled with the rules of the language for
    property assignment and enumeration: array indices before names, the
    accessor [__proto__], and reads that fall through to the prototype
    chain.  Platform services the package calls but does not implement
    ([JSON.parse], [TextDecoder], the regular expression engine, [Number],
    [BigInt], [URL], the ABI signature parser, the members objects inherit,
    and the network) are section variables or scripted environments. *)

From Stdlib Require Import ZArith String Ascii List Bool Lia Sorted Permutation.
From stdpp Require Import base option list strings gmap pretty.
From Equations Require Import Equations.

Import ListNotations.
Set Warnings "-register-all".
Local Open Scope string_scope.
Local Open Scope Z_scope.

(** ** JavaScript strings *)

Module JsString.

Definition LF : ascii := "010"%char.

(** The frame separator: two line feeds. *)
Definition LFLF : string := String LF (String LF "").

(** [s.startsWith(p)] *)
Definition startsWith (p s : string) : bool := String.prefix p s.

(** [s.slice(n)] for [0 <= n]. *)
Fixpoint drop (n : nat) (s : string) : string :=
  match n, s with
  | O, _ => s
  | S _, EmptyString => EmptyString
  | S n', String _ s' => drop n' s'
  end.

(** [s.slice(0, n)] for [0 <= n]. *)
Fixpoint take (n : nat) (s : string) : string :=
  match n, s with
  | O, _ => EmptyString
  | S _, EmptyString => EmptyString
  | S n', String c s' => String c (take n' s')
  end.

(** [s.indexOf(p)]; [None] stands for the result [-1]. *)
Fixpoint indexOf (p s : string) : option nat :=
  if startsWith p s then Some O
  else match s with
       | EmptyString => None
       | String _ s' => S <$> indexOf p s'
       end.

(** [s.includes(p)] *)
Definition includes (p s : string) : bool :=
  match indexOf p s with Some _ => true | None => false end.

(** [s.split(c)] for a one-character separator [c]. *)
Fixpoint split (c : ascii) (s : string) : list string :=
  match s with
  | EmptyString => [EmptyString]
  | String a s' =>
      if Ascii.eqb a c then EmptyString :: split c s'
      else match split c s' with
           | [] => [String a EmptyString]
           | w :: ws => String a w :: ws
           end
  end.

(** White space and line terminators removed by [trim] (the ones that are
    single code units below 256). *)
Definition isSpace (a : ascii) : bool :=
  let n := nat_of_ascii a in
  ((9 <=? n)%nat && (n <=? 13)%nat) || (n =? 32)%nat || (n =? 160)%nat.

Fixpoint trimStart (s : string) : string :=
  match s with
  | EmptyString => EmptyString
  | String a s' => if isSpace a then trimStart s' else s
  end.

Fixpoint trimEnd (s : string) : string :=
  match s with
  | EmptyString => EmptyString
  | String a s' =>
      match trimEnd s' with
      | EmptyString => if isSpace a then EmptyString else String a EmptyString
      | t => String a t
      end
  end.

(** [s.trim()] *)
Definition trim (s : string) : string := trimEnd (trimStart s).

Definition lowerChar (a : ascii) : ascii :=
  let n := nat_of_ascii a in
  if ((65 <=? n)%nat && (n <=? 90)%nat) then ascii_of_nat (n + 32) else a.

(** [s.toLowerCase()] on the ASCII letters. *)
Fixpoint toLowerCase (s : string) : string :=
  match s with
  | EmptyString => EmptyString
  | String a s' => String (lowerChar a) (toLowerCase s')
  end.

Definition isDigit (a : ascii) : bool :=
  let n := nat_of_ascii a in ((48 <=? n)%nat && (n <=? 57)%nat).

Fixpoint allDigits (s : string) : bool :=
  match s with
  | EmptyString => true
  | String a s' => isDigit a && allDigits s'
  end.

(** The number denoted by a string of decimal digits (most significant
    first), as [Number(s)] reads it. *)
Fixpoint digitsValue (acc : Z) (s : string) : Z :=
  match s with
  | EmptyString => acc
  | String a s' => digitsValue (10 * acc + (Z.of_nat (nat_of_ascii a) - 48)) s'
  end.

(** The last character of a string. *)
Fixpoint lastChar (s : string) : option ascii :=
  match s with
  | EmptyString => None
  | String a EmptyString => Some a
  | String _ s' => lastChar s'
  end.

(** Truthiness of a string: only the empty string is falsy. *)
Definition truthy (s : string) : bool :=
  match s with EmptyString => false | _ => true end.

(** The double quote, and a text between double quotes. *)
Definition DQUOTE : ascii := "034"%char.

Definition quoted (s : string) : string :=
  String DQUOTE (s ++ String DQUOTE "").

(** *** Lengths and concatenation *)

Lemma append_nil_l (t : string) : "" ++ t = t.
Proof. reflexivity. Qed.

Lemma append_cons (c : ascii) (s t : string) :
  String c s ++ t = String c (s ++ t).
Proof. reflexivity. Qed.

Lemma length_append (s t : string) :
  String.length (s ++ t) = (String.length s + String.length t)%nat.
Proof.
  induction s as [|c s IH]; [reflexivity|].
  rewrite append_cons. simpl. now rewrite IH.
Qed.

Lemma append_nil_r (s : string) : s ++ "" = s.
Proof.
  induction s as [|c s IH]; [reflexivity|].
  rewrite append_cons. now rewrite IH.
Qed.

Lemma append_assoc (s t u : string) : (s ++ t) ++ u = s ++ (t ++ u).
Proof.
  induction s as [|c s IH]; [reflexivity|].
  rewrite !append_cons. now rewrite IH.
Qed.

Lemma drop_length (n : nat) (s : string) :
  String.length (drop n s) = (String.length s - n)%nat.
Proof. revert s; induction n; intros [|c s]; simpl; auto. Qed.

Lemma prefix_length (p s : string) :
  String.prefix p s = true -> (String.length p <= String.length s)%nat.
Proof.
  revert s; induction p as [|a p IH]; intros [|c s]; simpl;
    try lia; try discriminate.
  destruct (ascii_dec a c); [|discriminate].
  intros H. apply IH in H. lia.
Qed.

(** A match of [p] at index [i] lies inside the string. *)
Lemma indexOf_bound (p s : string) (i : nat) :
  indexOf p s = Some i -> (i + String.length p <= String.length s)%nat.
Proof.
  revert i; induction s as [|c s IH]; intros i; cbn [indexOf]; unfold startsWith.
  - destruct (String.prefix p "") eqn:E; [|discriminate].
    intros Hi; inversion Hi; subst. apply prefix_length in E. simpl in *. lia.
  - destruct (String.prefix p (String c s)) eqn:E.
    + intros Hi; inversion Hi; subst. apply prefix_length in E. lia.
    + destruct (indexOf p s) as [j|]; simpl; [|discriminate].
      intros Hi; inversion Hi; subst. specialize (IH _ eq_refl). simpl. lia.
Qed.

End JsString.

(** ** JavaScript values

    One type serves for JSON documents (no [VUndefined], no [VBigInt]) and
    for the values a decoded row holds. *)

Inductive Value : Type :=
| VUndefined
| VNull
| VBool (b : bool)
| VNumber (n : Z)
| VBigInt (n : Z)
| VString (s : string)
| VArray (items : list Value)
| VObject (fields : list (string * Value)).

(** Property read [o[k]] on an object built from a JSON document. *)
Fixpoint assoc {A : Type} (k : string) (fields : list (string * A)) : option A :=
  match fields with
  | [] => None
  | (k', v) :: rest => if String.eqb k k' then Some v else assoc k rest
  end.

(** [v.k]: [VUndefined] when the property is missing. *)
Definition getProp (k : string) (v : Value) : Value :=
  match v with
  | VObject fields => default VUndefined (assoc k fields)
  | _ => VUndefined
  end.


(** ** Errors

    [FetchRequestError] and [SseError] are the two error classes of
    [IndexSupply.ts]; [BaseError] is the plain [ox] error the package throws
    itself; [PlatformError name message] stands for every error raised by
    the platform or a library ([AbortError], [TypeError], [SyntaxError],
    [ZodError], ...).  The [type] of an [SseError] and the messages read from
    a JSON document are the values found in that document. *)

Inductive Error : Type :=
| FetchRequestError (message : Value) (status : Z)
| SseError (message : Value) (type : Value)
| BaseError (message : string)
| PlatformError (name message : string).

Definition AbortError : Error :=
  PlatformError "AbortError" "This operation was aborted".

Definition TypeError (message : string) : Error :=
  PlatformError "TypeError" message.

Definition SyntaxError (message : string) : Error :=
  PlatformError "SyntaxError" message.

Definition ZodError : Error :=
  PlatformError "ZodError" "Invalid input".

(** ** Platform interfaces *)

(** The result of running a regular expression on a string: the pattern
    does not compile, there is no match, or the groups of the leftmost match
    (group 0 is the whole match). *)
Inductive RegExpResult : Type :=
| RegExpInvalid (e : Error)
| RegExpNull
| RegExpMatch (groups : list (option string)).

(** One parameter of an ABI item and the ABI item [AbiItem.from] returns:
    [item_name] is [None] for an item without a [name] member. *)
Record AbiParameter : Type := {
  param_name : option string;
  param_type : string
}.

Record AbiItem : Type := {
  item_name : option string;
  item_inputs : list AbiParameter
}.

(** The schemas [result.ts] builds with [zod/mini]. *)
Inductive Transform : Type := ToNumber | ToBigInt | ToEpochSeconds.

Inductive ZodMiniType : Type :=
| z_hex                               (* z.templateLiteral(['0x', z.string()]) *)
| z_boolean
| z_string
| z_number
| z_bigint
| z_array (item : ZodMiniType)
| z_transform (f : Transform).

(** The object [types] that [parse] fills for one signature.  As long as
    its prototype is the one it was created with, the model tracks its own
    properties; once an input named [__proto__] has been assigned to it, it
    is a value [f] of the platform. *)
Inductive TypesObject (F : Type) : Type :=
| TrackedTypes (own : gmap string ZodMiniType)
| UntrackedTypes (f : F).

Arguments TrackedTypes {F} own.
Arguments UntrackedTypes {F} f.

(** The objects of [parse] that the platform may be handed as values. *)
Inductive Tracked (F : Type) : Type :=
| OfSchema (type : ZodMiniType)
| OfTypes (own : gmap string ZodMiniType)
| OfTables (own : gmap string (TypesObject F)).

Arguments OfSchema {F} type.
Arguments OfTypes {F} own.
Arguments OfTables {F} own.

(** What the platform and the libraries provide. *)
Record Platform : Type := {
  (** [JSON.parse]: the value, or the message of the [SyntaxError]. *)
  JSON_parse : string -> Value + string;
  (** [new TextDecoder('utf-8')] used with [{ stream: true }]: a transducer
      that reads one byte at a time and keeps the bytes of an unfinished
      character in its state. *)
  DecoderState : Type;
  decoder_new : DecoderState;
  decode_byte : DecoderState -> Byte.byte -> DecoderState * string;
  (** [subject.match(new RegExp(source, flags))] *)
  RegExp_match : string -> string -> string -> RegExpResult;
  (** [AbiItem.from(signature)] of [ox] *)
  AbiItem_from : string -> Error + AbiItem;
  (** [Number(value)] and [BigInt(value)] *)
  JS_Number : Value -> Value;
  JS_BigInt : Value -> Error + Value;
  (** The [block_timestamp] transform, whose body rests on [Date.parse]. *)
  parseTimestamp : Value -> Error + Value;
  (** [new URL(text)]: the error it throws when [text] is no absolute
      URL. *)
  URL_error : string -> option Error;
  (** The values the module comes across without building them: what
      objects inherit (built-in functions, prototype objects) and the
      properties of such values. *)
  Foreign : Type;
  (** What the read [o[name]] finds on the prototype chain of an object [o]
      that has no own property [name] and whose prototype is
      [Object.prototype] (for [__proto__]: that prototype itself); [None]
      when it finds nothing. *)
  Object_prototype_get : string -> option Foreign;
  (** [f[name]] on such a value: [None] stands for [undefined] and
      [null]. *)
  foreign_get : Foreign -> string -> Error + option Foreign;
  (** [f[name] = v] on such a value: the error raised, or the value [f]
      after the assignment. *)
  foreign_set : Foreign -> string -> Foreign -> Error + Foreign;
  (** Truthiness of such a value. *)
  foreign_truthy : Foreign -> bool;
  (** [f.parse(value)]: a [TypeError] when [f.parse] is no function. *)
  foreign_parse : Foreign -> Value -> Error + Value;
  (** An object of [parse] handed to the platform as a value. *)
  foreign_of : Tracked Foreign -> Foreign
}.

(** ** src/internal/result.ts: data *)

Record Column : Type := { name : string; pgtype : string }.

(** [Raw]: the payload of the server. *)
Record Raw : Type := {
  raw_columns : list Column;
  raw_cursor : string;
  raw_rows : list (list Value)
}.

(** *** The object [row]

    A decoded row is the object that [const row = {}] creates and that
    [row[name] = value] fills.  The language keeps the own properties whose
    name is an array index apart from the others: the first are enumerated
    in ascending order of the index, the others after them in the order of
    their creation.  The prototype of the object is [Object.prototype]
    until an assignment to [__proto__] replaces it. *)

Definition Properties : Type := list (string * Value).

(** The names of a list of properties, in its order. *)
Definition names (props : Properties) : list string := map fst props.

(** An array index: the canonical text of an integer from 0 to 2^32 - 2. *)
Definition isArrayIndex (k : string) : bool :=
  JsString.truthy k && JsString.allDigits k
  && (String.eqb k "0" || negb (JsString.startsWith "0" k))
  && (JsString.digitsValue 0 k <=? 4294967294).

Definition indexValue (k : string) : Z := JsString.digitsValue 0 k.

Inductive Prototype : Type :=
| ObjectPrototype
| NullPrototype
| ValuePrototype (v : Value).

Record Row : Type := {
  row_elements : Properties;
  row_properties : Properties;
  row_prototype : Prototype
}.

(** [{}] *)
Definition emptyRow : Row :=
  {| row_elements := []; row_properties := []; row_prototype := ObjectPrototype |}.

(** [Result] *)
Record Result : Type := {
  result_cursor : string;
  result_rows : list Row
}.

(** A named property is written: an existing one keeps its place and takes
    the value, a new one goes last. *)
Fixpoint setProp (k : string) (v : Value) (props : Properties) : Properties :=
  match props with
  | [] => [(k, v)]
  | (k', v') :: rest =>
      if String.eqb k' k then (k, v) :: rest else (k', v') :: setProp k v rest
  end.

(** An indexed property is written: an existing one takes the value, a new
    one goes before the first larger index. *)
Fixpoint setElement (k : string) (v : Value) (elements : Properties) : Properties :=
  match elements with
  | [] => [(k, v)]
  | (k', v') :: rest =>
      if String.eqb k' k then (k, v) :: rest
      else if indexValue k <? indexValue k' then (k, v) :: elements
      else (k', v') :: setElement k v rest
  end.

(** The own property [k] is created or takes the value [v]. *)
Definition defineOwn (k : string) (v : Value) (row : Row) : Row :=
  if isArrayIndex k then
    {| row_elements := setElement k v (row_elements row);
       row_properties := row_properties row;
       row_prototype := row_prototype row |}
  else
    {| row_elements := row_elements row;
       row_properties := setProp k v (row_properties row);
       row_prototype := row_prototype row |}.

(** The name of the accessor of [Object.prototype]. *)
Definition PROTO : string := "__proto__".

(** Whether the search for [__proto__] along the prototype chain ends at
    the accessor of [Object.prototype]: it does not when the chain is empty,
    nor when the prototype is an object read from JSON that has a property
    [__proto__] of its own (arrays and the other objects of JSON inherit
    from [Object.prototype] and have none). *)
Definition inheritsAccessor (prototype : Prototype) : bool :=
  match prototype with
  | ObjectPrototype => true
  | NullPrototype => false
  | ValuePrototype (VObject fields) =>
      match assoc PROTO fields with Some _ => false | None => true end
  | ValuePrototype _ => true
  end.

Definition withPrototype (prototype : Prototype) (row : Row) : Row :=
  {| row_elements := row_elements row;
     row_properties := row_properties row;
     row_prototype := prototype |}.

(** [row[k] = v] (line 191).  Every name but [__proto__] creates or
    updates an own property, whatever the prototype chain holds, since the
    chain has data properties that can be written and no other accessor.
    An assignment to [__proto__] that reaches the accessor sets the
    prototype when [v] is an object or [null] and does nothing otherwise;
    when it does not reach it, or when the row has a property [__proto__]
    of its own already, it writes that property. *)
Definition assign (k : string) (v : Value) (row : Row) : Row :=
  if String.eqb k PROTO then
    match assoc k (row_properties row) with
    | Some _ => defineOwn k v row
    | None =>
        if inheritsAccessor (row_prototype row) then
          match v with
          | VNull => withPrototype NullPrototype row
          | VArray _ | VObject _ => withPrototype (ValuePrototype v) row
          | _ => row
          end
        else defineOwn k v row
    end
  else defineOwn k v row.

(** [Object.keys(row)] *)
Definition keys (row : Row) : list string :=
  (names (row_elements row) ++ names (row_properties row))%list.

(** [row[k]] for an own property. *)
Definition getOwn (k : string) (row : Row) : option Value :=
  if isArrayIndex k then assoc k (row_elements row)
  else assoc k (row_properties row).

(** The own properties of [standardColumnTypes] (lines 55-97). *)
Definition standardColumnTypes : gmap string ZodMiniType :=
  list_to_map [
    ("address", z_hex);
    ("block_num", z_transform ToBigInt);
    ("block_timestamp", z_transform ToEpochSeconds);
    ("chain", z_number);
    ("data", z_hex);
    ("extra_data", z_hex);
    ("from", z_hex);
    ("gas", z_transform ToBigInt);
    ("gas_limit", z_bigint);
    ("gas_price", z_transform ToBigInt);
    ("gas_used", z_bigint);
    ("hash", z_hex);
    ("idx", z_number);
    ("input", z_hex);
    ("log_idx", z_number);
    ("miner", z_hex);
    ("nonce", z_transform ToBigInt);
    ("num", z_bigint);
    ("receipts_root", z_hex);
    ("size", z_number);
    ("state_root", z_hex);
    ("timestamp", z_number);
    ("to", z_hex);
    ("topics", z_array z_string);
    ("tx_hash", z_hex);
    ("type", z_number);
    ("value", z_transform ToBigInt)
  ].

(** [standardTables] *)
Definition standardTables : list string := ["txs"; "logs"; "blocks"].

(** [type.match(/int(\d+)$/)?.[1]]: the digits of the leftmost occurrence
    of [int] that is followed by one or more digits up to the end of the
    string. *)
Fixpoint matchIntSize (type : string) : option string :=
  let here :=
    if JsString.startsWith "int" type then
      let digits := JsString.drop 3 type in
      if JsString.truthy digits && JsString.allDigits digits
      then Some digits else None
    else None in
  match here with
  | Some digits => Some digits
  | None =>
      match type with
      | EmptyString => None
      | String _ rest => matchIntSize rest
      end
  end.

(** The schema of one signature input, from its ABI type (lines 136-154). *)
Definition transform (type : string) : ZodMiniType :=
  if String.eqb type "address" then z_hex
  else if String.eqb type "bool" then z_boolean
  else if JsString.startsWith "bytes" type then
    if JsString.includes "[" type then z_array z_hex else z_hex
  else if JsString.startsWith "int" type || JsString.startsWith "uint" type then
    let size := matchIntSize type in
    let inner :=
      match size with
      | Some digits =>
          if JsString.truthy digits && (JsString.digitsValue 0 digits <=? 48)
          then z_transform ToNumber
          else z_transform ToBigInt
      | None => z_transform ToBigInt
      end in
    if JsString.includes "[" type then z_array inner else inner
  else z_string.

(** The rule for [int*]/[uint*] as the specification words it: the declared
    width is the run of digits after [int] ([256] when there is none), a
    width of at most 48 gives a number and a larger one a big integer, and
    an array type wraps the rule of its elements. *)
Definition declaredWidth (type : string) : Z :=
  let afterInt :=
    if JsString.startsWith "uint" type then JsString.drop 4 type
    else JsString.drop 3 type in
  let digits :=
    match JsString.indexOf "[" afterInt with
    | Some i => JsString.take i afterInt
    | None => afterInt
    end in
  if JsString.truthy digits then JsString.digitsValue 0 digits else 256.

Definition intRule_spec (type : string) : ZodMiniType :=
  let inner :=
    if declaredWidth type <=? 48 then z_transform ToNumber
    else z_transform ToBigInt in
  if JsString.includes "[" type then z_array inner else inner.

(** ** src/IndexSupply.ts: data *)

(** A cursor: a string, or an object whose [chainId] and [blockNumber] are
    integers.  The text of an integer is its decimal digits; that is the
    text the language gives a [bigint] of any size and a [Number] that is a
    safe integer (of magnitude below 2^53), and the statements that depend
    on the digits say so. *)
Inductive Cursor : Type :=
| CursorString (s : string)
| CursorObject (chainId blockNumber : Z).

(** The options of [fetch] and [live] that the module reads.
    [opt_retryCount] is the retry count as the loops read it: they compare
    it with a counter that is an integer, and [count < retryCount] on such
    a counter is [count < n] for the least integer [n] that is not below
    [retryCount]; the field holds that integer ([NaN] reads as 0; an
    infinite count is outside the model).  [opt_signal] records whether the
    caller supplied an [AbortSignal]. *)
Record Options : Type := {
  opt_cursor : option Cursor;
  opt_signatures : option (list string);
  opt_query : string;
  opt_retryCount : option Z;
  opt_signal : bool
}.

(** The options of [create]. *)
Record CreateOptions : Type := {
  apiKey : option string;
  baseUrl : option string
}.

(** The object [requestBody] of [fetch]. *)
Record RequestBody : Type := {
  body_query : string;
  body_cursor : option string;
  body_signatures : option (list string)
}.

(** [URLSearchParams]: an ordered list of name/value pairs. *)
Definition SearchParams : Type := list (string * string).

Inductive Method : Type := GET | POST.

Record Request : Type := {
  method : Method;
  url : string;
  search : SearchParams;
  headers : list (string * string);
  body : option (list RequestBody)
}.

(** One result of [reader.read()]: a chunk of bytes, the end of the stream,
    or a rejection. *)
Inductive ReadResult : Type :=
| Chunk (value : list Byte.byte)
| Done
| ReadError (e : Error).

(** A response of the server: its status, its body as text (read by
    [response.text()] when the status is not 2xx), as a JSON array of
    payloads (read by [response.json()] in [fetch]; an [Error] when the
    text is not JSON) and as a stream of reads ([response.body] in [live];
    [None] for a null body). *)
Record Response : Type := {
  status : Z;
  text : string;
  json : Error + list Raw;
  stream : option (list ReadResult)
}.

(** [response.ok] *)
Definition ok (response : Response) : bool :=
  (200 <=? status response) && (status response <=? 299).

(** What [await fetch(request)] does: reject, or resolve to a response. *)
Inductive Fetched : Type :=
| Rejected (e : Error)
| Resolved (response : Response).

(** One connection of a [live] session as the environment plays it.
    [aborted] tells that an [abort] event of the caller's signal reached
    the listener that [live] registered (line 241) before the failure of
    this connection was caught, [abortedInSleep] that one reached it
    during the backoff sleep after it.  A signal that has aborted before
    the listener is registered dispatches no event: both flags are [false]
    in every connection of such a session, however the platform answers
    its requests. *)
Record Attempt : Type := {
  fetched : Fetched;
  aborted : bool;
  abortedInSleep : bool
}.

(** What a caller observes of a run, in order. *)
Inductive Event : Type :=
| EmitRequest (request : Request)
| EmitResponse (status : Z)
| EmitError (e : Error)
| Yield (item : Value)
| Sleep (ms : Z).

(** How a run ends: with a value, with an error, or still waiting for the
    environment when the script of the environment is used up. *)
Inductive Completion (A : Type) : Type :=
| Return (a : A)
| Throw (e : Error)
| Waiting.

Arguments Return {A} a.
Arguments Throw {A} e.
Arguments Waiting {A}.

(** How the sequence of [readStream] ends. *)
Inductive StreamEnd : Type :=
| Ended
| Threw (e : Error)
| Pending.

(** [error.type === 'server'] *)
Definition isServer (type : Value) : bool :=
  match type with
  | VString s => String.eqb s "server"
  | _ => false
  end.

(** [shouldRetry] (lines 479-487). *)
Definition shouldRetry (error : Error) : bool :=
  match error with
  | SseError _ type => isServer type
  | FetchRequestError _ status =>
      (status =? 408) || (status =? 429) || (500 <=? status)
  | _ => false
  end.

(** The retry rule in the words of the specification, the class of server
    statuses closed at 599. *)
Definition retryable_spec (error : Error) : Prop :=
  match error with
  | SseError _ type => type = VString "server"
  | FetchRequestError _ status =>
      status = 408 \/ status = 429 \/ 500 <= status <= 599
  | _ => False
  end.

(** The retry rule of the code: every status from 500 on. *)
Definition retryable (error : Error) : Prop :=
  match error with
  | SseError _ type => type = VString "server"
  | FetchRequestError _ status =>
      status = 408 \/ status = 429 \/ 500 <= status
  | _ => False
  end.

(** [Math.min(200 * 2 ** (count - 1), 30_000)].  [count] is never negative;
    at [count = 0] the power is one half and the delay 100. *)
Definition backoff (count : Z) : Z :=
  Z.min (200 * 2 ^ count / 2) 30000.

(** [typeof cursor === 'string' ? cursor
      : `${cursor.chainId}-${cursor.blockNumber.toString()}`] *)
Definition cursorText (cursor : Cursor) : string :=
  match cursor with
  | CursorString s => s
  | CursorObject chainId blockNumber =>
      pretty chainId ++ "-" ++ pretty blockNumber
  end.

(** Truthiness of an optional cursor: [undefined] and the empty string are
    falsy, an object is truthy. *)
Definition cursorTruthy (cursor : option Cursor) : bool :=
  match cursor with
  | None => false
  | Some (CursorString s) => JsString.truthy s
  | Some (CursorObject _ _) => true
  end.

Definition defaultBaseUrl : string := "https://api.indexsupply.net/v2".

Definition baseUrlOf (c : CreateOptions) : string :=
  default defaultBaseUrl (baseUrl c).

(** [...(apiKey ? { 'Api-Key': apiKey } : {})] *)
Definition apiKeyHeader (c : CreateOptions) : list (string * string) :=
  match apiKey c with
  | Some k => if JsString.truthy k then [("Api-Key", k)] else []
  | None => []
  end.

(** Lines 171-175: the cursor is set when it is not [undefined]. *)
Definition requestBody (options : Options) : RequestBody :=
  {| body_query := opt_query options;
     body_cursor :=
       match opt_cursor options with
       | Some c => Some (cursorText c)
       | None => None
       end;
     body_signatures := opt_signatures options |}.

(** [params.append(k, v)] *)
Definition params_append (k v : string) (params : SearchParams) : SearchParams :=
  (params ++ [(k, v)])%list.

Definition params_remove (k : string) (params : SearchParams) : SearchParams :=
  List.filter (fun kv => negb (String.eqb (fst kv) k)) params.

(** [params.set(k, v)]: the first pair named [k] takes the value and the
    other pairs named [k] go; without one the pair is appended. *)
Fixpoint params_set (k v : string) (params : SearchParams) : SearchParams :=
  match params with
  | [] => [(k, v)]
  | (k', v') :: rest =>
      if String.eqb k' k then (k, v) :: params_remove k rest
      else (k', v') :: params_set k v rest
  end.

(** [params.get(k)] *)
Definition params_get (k : string) (params : SearchParams) : option string :=
  assoc k params.

(** Lines 254-263: the query string of one [live] connection; the cursor is
    set when it is truthy. *)
Definition liveParams (options : Options) : SearchParams :=
  let params : SearchParams := [] in
  let params :=
    if cursorTruthy (opt_cursor options) then
      match opt_cursor options with
      | Some c => params_set "cursor" (cursorText c) params
      | None => params
      end
    else params in
  let params :=
    match opt_signatures options with
    | Some sigs =>
        fold_left (fun ps sig => params_append "signatures" sig ps) sigs params
    | None => params
    end in
  params_set "query" (opt_query options) params.

(** The request of one [fetch] attempt (lines 184-192). *)
Definition fetchRequest (c : CreateOptions) (options : Options) : Request :=
  {| method := POST;
     url := baseUrlOf c ++ "/query";
     search := [];
     headers := ("Content-Type", "application/json") :: apiKeyHeader c;
     body := Some [requestBody options] |}.

(** The request of one [live] connection (lines 252-274). *)
Definition liveRequest (c : CreateOptions) (options : Options) : Request :=
  {| method := GET;
     url := baseUrlOf c ++ "/query-live";
     search := liveParams options;
     headers := apiKeyHeader c;
     body := None |}.

(** The [for] loop over one decoded payload (lines 307-309): an object with
    an [error] member raises an [SseError], an array yields its items, and
    anything else makes [in] or [for ... of] raise a [TypeError]. *)
Definition handleData (data : Value) : list Event * option Error :=
  match data with
  | VArray items => (map Yield items, None)
  | VObject fields =>
      match assoc "error" fields with
      | Some type => ([], Some (SseError (getProp "message" data) type))
      | None => ([], Some (TypeError "data is not iterable"))
      end
  | _ => ([], Some (TypeError "Cannot use 'in' operator"))
  end.

(** The body of [for await (const data of readStream(reader))] over the
    payloads the stream delivers, with the counter [count]: each payload
    that is handled without an error is followed by [count = 0]. *)
Fixpoint consume (count : Z) (payloads : list Value)
  : list Event * Z * option Error :=
  match payloads with
  | [] => ([], count, None)
  | data :: rest =>
      match handleData data with
      | (evs, Some e) => (evs, count, Some e)
      | (evs, None) =>
          let '(evs', count', e) := consume 0 rest in
          ((evs ++ evs')%list, count', e)
      end
  end.

(** ** A platform for the examples

    The decoder reads one byte as one character (UTF-8 on ASCII text), the
    JSON reader knows the documents of the examples below and reports any
    other text as malformed, no regular expression matches, and a signature
    has no ABI item.  An object inherits the members of [Object.prototype]
    that the language defines, all of them functions without a member
    [parse]; the examples read no other property of these values. *)

Inductive ExampleForeign : Type :=
| BuiltinFunction (name : string)
| ThePrototype
| Opaque.

(** The names of the function members of [Object.prototype]. *)
Definition objectPrototypeMembers : list string :=
  [ "constructor"; "hasOwnProperty"; "isPrototypeOf"; "propertyIsEnumerable";
    "toLocaleString"; "toString"; "valueOf"; "__defineGetter__";
    "__defineSetter__"; "__lookupGetter__"; "__lookupSetter__" ].

Definition example_Object_prototype_get (name : string) : option ExampleForeign :=
  if String.eqb name PROTO then Some ThePrototype
  else if existsb (String.eqb name) objectPrototypeMembers
       then Some (BuiltinFunction name)
       else None.

(** [new URL(text)] in the examples: a text is an absolute URL when it
    starts with [http]. *)
Definition example_URL_error (text : string) : option Error :=
  if JsString.startsWith "http" text then None
  else Some (TypeError "Invalid URL").

(** The message of the engine when [type.parse] is called and is no
    function. *)
Definition notAFunction : Error := TypeError "type.parse is not a function".

Definition exampleBatch : string :=
  "[{" ++ JsString.quoted "cursor" ++ ":" ++ JsString.quoted "1-5" ++ ","
       ++ JsString.quoted "rows" ++ ":[]}]".

Definition exampleBatchValue : Value :=
  VArray [VObject [("cursor", VString "1-5"); ("rows", VArray [])]].

Definition exampleServerError : string :=
  "{" ++ JsString.quoted "error" ++ ":" ++ JsString.quoted "server" ++ ","
      ++ JsString.quoted "message" ++ ":" ++ JsString.quoted "restart" ++ "}".

Definition exampleServerErrorValue : Value :=
  VObject [("error", VString "server"); ("message", VString "restart")].

Definition example_JSON_parse (s : string) : Value + string :=
  if String.eqb s "[]" then inl (VArray [])
  else if String.eqb s "1" then inl (VNumber 1)
  else if String.eqb s exampleBatch then inl exampleBatchValue
  else if String.eqb s exampleServerError then inl exampleServerErrorValue
  else inr "Unexpected token".

Definition examplePlatform : Platform :=
  {| JSON_parse := example_JSON_parse;
     DecoderState := unit;
     decoder_new := tt;
     decode_byte := fun st b => (st, String (ascii_of_byte b) "");
     RegExp_match := fun _ _ _ => RegExpNull;
     AbiItem_from := fun _ => inl (BaseError "Unknown signature");
     JS_Number := fun v => v;
     JS_BigInt := fun v => inr v;
     parseTimestamp := fun v => inr v;
     URL_error := example_URL_error;
     Foreign := ExampleForeign;
     Object_prototype_get := example_Object_prototype_get;
     foreign_get := fun _ _ => inr None;
     foreign_set := fun f _ _ => inr f;
     foreign_truthy := fun _ => true;
     foreign_parse := fun _ _ => inl notAFunction;
     foreign_of := fun _ => Opaque |}.

(** The same platform with a regular expression engine that finds the
    table [t] in every query. *)
Definition tablePlatform (t : string) : Platform :=
  {| JSON_parse := example_JSON_parse;
     DecoderState := unit;
     decoder_new := tt;
     decode_byte := fun st b => (st, String (ascii_of_byte b) "");
     RegExp_match := fun _ _ _ => RegExpMatch [Some t; Some t];
     AbiItem_from := fun _ => inl (BaseError "Unknown signature");
     JS_Number := fun v => v;
     JS_BigInt := fun v => inr v;
     parseTimestamp := fun v => inr v;
     URL_error := example_URL_error;
     Foreign := ExampleForeign;
     Object_prototype_get := example_Object_prototype_get;
     foreign_get := fun _ _ => inr None;
     foreign_set := fun f _ _ => inr f;
     foreign_truthy := fun _ => true;
     foreign_parse := fun _ _ => inl notAFunction;
     foreign_of := fun _ => Opaque |}.

(** The bytes of an ASCII text. *)
Definition bytes (s : string) : list Byte.byte := list_byte_of_string s.

Section WithPlatform.

Variable P : Platform.

(** ** src/internal/result.ts: functions *)

(** [type.parse(value)] for the schemas of the module. *)
Fixpoint zparse (type : ZodMiniType) (value : Value) : Error + Value :=
  match type with
  | z_hex =>
      match value with
      | VString s => if JsString.startsWith "0x" s then inr value else inl ZodError
      | _ => inl ZodError
      end
  | z_boolean => match value with VBool _ => inr value | _ => inl ZodError end
  | z_string => match value with VString _ => inr value | _ => inl ZodError end
  | z_number => match value with VNumber _ => inr value | _ => inl ZodError end
  | z_bigint => match value with VBigInt _ => inr value | _ => inl ZodError end
  | z_array item =>
      match value with
      | VArray items =>
          (fix each (l : list Value) : Error + Value :=
             match l with
             | [] => inr (VArray [])
             | x :: rest =>
                 match zparse item x with
                 | inl e => inl e
                 | inr y =>
                     match each rest with
                     | inr (VArray ys) => inr (VArray (y :: ys))
                     | other => other
                     end
                 end
             end) items
      | _ => inl ZodError
      end
  | z_transform ToNumber => inr (JS_Number P value)
  | z_transform ToBigInt => JS_BigInt P value
  | z_transform ToEpochSeconds => parseTimestamp P value
  end.

(** [match?.[1]] read as a table name: a missing or empty group is no
    name. *)
Definition firstGroup (groups : list (option string)) : option string :=
  match groups !! 1%nat with
  | Some (Some s) => if JsString.truthy s then Some s else None
  | _ => None
  end.

(** [extractTableName] (lines 102-106).  The pattern is a literal, so the
    engine has no reason to reject it. *)
Definition extractTableName (query : string) : option string :=
  match RegExp_match P "\bfrom\s+(\w+)" "i" (JsString.toLowerCase query) with
  | RegExpMatch groups => firstGroup groups
  | _ => None
  end.

(** The source of the pattern [getColumnTableName] builds around [name]. *)
Definition columnPattern (name : string) : string :=
  let q := String JsString.DQUOTE "" in
  q ++ "?(\w+)" ++ q ++ "?\." ++ q ++ "?" ++ name ++ q ++ "?(?:\s|,|$)".

(** [getColumnTableName] (lines 109-115): [new RegExp] throws when [name]
    makes the pattern malformed. *)
Definition getColumnTableName (name query : string) : Error + option string :=
  match RegExp_match P (columnPattern name) "i" query with
  | RegExpInvalid e => inl e
  | RegExpNull => inr None
  | RegExpMatch groups => inr (firstGroup groups)
  end.

(** *** Reads and writes of the objects [types] and [signatureTypes] *)

(** What a read may give for [type]: a schema of the module, or a value of
    the platform. *)
Inductive TypeValue : Type :=
| IsSchema (type : ZodMiniType)
| IsForeign (f : Foreign P).

Definition foreignType (found : Error + option (Foreign P))
  : Error + option TypeValue :=
  match found with
  | inl e => inl e
  | inr None => inr None
  | inr (Some f) => inr (Some (IsForeign f))
  end.

(** A read that no own property answers goes to the prototype chain. *)
Definition inherited (name : string) : option TypeValue :=
  match Object_prototype_get P name with
  | Some f => Some (IsForeign f)
  | None => None
  end.

(** [standardColumnTypes[name]] *)
Definition standardType (name : string) : option TypeValue :=
  match standardColumnTypes !! name with
  | Some type => Some (IsSchema type)
  | None => inherited name
  end.

(** [types[name]] *)
Definition typesGet (types : TypesObject (Foreign P)) (name : string)
  : Error + option TypeValue :=
  match types with
  | TrackedTypes own =>
      match own !! name with
      | Some type => inr (Some (IsSchema type))
      | None => inr (inherited name)
      end
  | UntrackedTypes f => foreignType (foreign_get P f name)
  end.

(** [types[name] = schema] (line 156).  The name [__proto__] reaches the
    accessor of [Object.prototype]: what the object is afterwards is for
    the platform to say.  Any other name creates or updates an own
    property. *)
Definition typesSet (name : string) (schema : ZodMiniType)
    (types : TypesObject (Foreign P)) : Error + TypesObject (Foreign P) :=
  match types with
  | TrackedTypes own =>
      if String.eqb name PROTO then
        match foreign_set P (foreign_of P (OfTypes own)) name
                (foreign_of P (OfSchema schema)) with
        | inl e => inl e
        | inr f => inr (UntrackedTypes f)
        end
      else inr (TrackedTypes (<[name := schema]> own))
  | UntrackedTypes f =>
      match foreign_set P f name (foreign_of P (OfSchema schema)) with
      | inl e => inl e
      | inr f' => inr (UntrackedTypes f')
      end
  end.

(** The loop over the inputs of one ABI item (lines 133-157). *)
Fixpoint inputTypes (inputs : list AbiParameter)
    (types : TypesObject (Foreign P)) : Error + TypesObject (Foreign P) :=
  match inputs with
  | [] => inr types
  | input :: rest =>
      match param_name input with
      | Some n =>
          if JsString.truthy n then
            match typesSet n (transform (param_type input)) types with
            | inl e => inl e
            | inr types' => inputTypes rest types'
            end
          else inputTypes rest types
      | None => inputTypes rest types
      end
  end.

(** The object [signatureTypes]: tracked as long as its prototype is the
    one it was created with. *)
Inductive SignatureTypes : Type :=
| TrackedTables (own : gmap string (TypesObject (Foreign P)))
| UntrackedTables (f : Foreign P).

(** The object [types] as a value. *)
Definition typesValue (types : TypesObject (Foreign P)) : Foreign P :=
  match types with
  | TrackedTypes own => foreign_of P (OfTypes own)
  | UntrackedTypes f => f
  end.

(** [signatureTypes[key] = types] (line 159). *)
Definition tablesSet (key : string) (types : TypesObject (Foreign P))
    (signatureTypes : SignatureTypes) : Error + SignatureTypes :=
  match signatureTypes with
  | TrackedTables own =>
      if String.eqb key PROTO then
        match foreign_set P (foreign_of P (OfTables own)) key (typesValue types) with
        | inl e => inl e
        | inr f => inr (UntrackedTables f)
        end
      else inr (TrackedTables (<[key := types]> own))
  | UntrackedTables f =>
      match foreign_set P f key (typesValue types) with
      | inl e => inl e
      | inr f' => inr (UntrackedTables f')
      end
  end.

(** [signatureTypes] (lines 127-160). *)
Fixpoint buildSignatureTypes (signatures : list string)
    (signatureTypes : SignatureTypes) : Error + SignatureTypes :=
  match signatures with
  | [] => inr signatureTypes
  | signature :: rest =>
      match AbiItem_from P signature with
      | inl e => inl e
      | inr abiItem =>
          match item_name abiItem with
          | None => buildSignatureTypes rest signatureTypes
          | Some n =>
              match inputTypes (item_inputs abiItem) (TrackedTypes ∅) with
              | inl e => inl e
              | inr types =>
                  match tablesSet (JsString.toLowerCase n) types signatureTypes with
                  | inl e => inl e
                  | inr signatureTypes' => buildSignatureTypes rest signatureTypes'
                  end
              end
          end
      end
  end.

(** [getColumnTableName({ name, query }) ?? sourceTableName] *)
Definition resolveTableName (name query : string)
    (sourceTableName : option string) : Error + option string :=
  match getColumnTableName name query with
  | inl e => inl e
  | inr (Some t) => inr (Some t)
  | inr None => inr sourceTableName
  end.

(** [signatureTypes[tableName]?.[name]] (line 182): the table is an own
    property, or what the prototype chain answers, and the column is read
    from whatever the table is. *)
Definition signatureType (signatureTypes : SignatureTypes)
    (tableName name : string) : Error + option TypeValue :=
  match signatureTypes with
  | TrackedTables own =>
      match own !! tableName with
      | Some types => typesGet types name
      | None =>
          match Object_prototype_get P tableName with
          | Some f => foreignType (foreign_get P f name)
          | None => inr None
          end
      end
  | UntrackedTables g =>
      match foreign_get P g tableName with
      | inl e => inl e
      | inr None => inr None
      | inr (Some f) => foreignType (foreign_get P f name)
      end
  end.

(** The value of [type] for a column (lines 178-185). *)
Definition columnType (signatureTypes : SignatureTypes)
    (tableName name : string) : Error + option TypeValue :=
  if bool_decide (tableName ∈ standardTables) then inr (standardType name)
  else
    match signatureType signatureTypes tableName name with
    | inl e => inl e
    | inr (Some type) => inr (Some type)
    | inr None => inr (standardType name)
    end.

(** [if (!type) return value; return type.parse(value)] (lines 186-188):
    a schema is truthy; a value of the platform is asked for its own
    truthiness and its own [parse]. *)
Definition decodeType (type : option TypeValue) (value : Value) : Error + Value :=
  match type with
  | None => inr value
  | Some (IsSchema schema) => zparse schema value
  | Some (IsForeign f) =>
      if foreign_truthy P f then foreign_parse P f value else inr value
  end.

(** The value stored for a column (lines 173-189). *)
Definition decodeCell (signatureTypes : SignatureTypes)
    (tableName : option string) (name : string) (value : Value)
  : Error + Value :=
  match tableName with
  | None => inr value
  | Some t =>
      if JsString.truthy t then
        match columnType signatureTypes t name with
        | inl e => inl e
        | inr type => decodeType type value
        end
      else inr value
  end.

(** The loop over the columns (lines 165-192) from column [j] on.  On a
    payload of type [Raw] the guards [!row_raw] and [!column] never fire;
    a row shorter than the columns reads [undefined]. *)
Fixpoint parseColumns (signatureTypes : SignatureTypes)
    (query : string) (sourceTableName : option string)
    (row_raw : list Value) (j : nat) (columns : list Column) (row : Row)
  : Error + Row :=
  match columns with
  | [] => inr row
  | column :: rest =>
      match resolveTableName (name column) query sourceTableName with
      | inl e => inl e
      | inr tableName =>
          match decodeCell signatureTypes tableName (name column)
                  (default VUndefined (row_raw !! j)) with
          | inl e => inl e
          | inr value =>
              parseColumns signatureTypes query sourceTableName row_raw (S j)
                rest (assign (name column) value row)
          end
      end
  end.

Definition parseRow (signatureTypes : SignatureTypes)
    (query : string) (sourceTableName : option string)
    (columns : list Column) (row_raw : list Value) : Error + Row :=
  parseColumns signatureTypes query sourceTableName row_raw 0 columns emptyRow.

(** The loop over the rows (lines 162-194). *)
Fixpoint parseRows (signatureTypes : SignatureTypes)
    (query : string) (sourceTableName : option string)
    (columns : list Column) (rows_raw : list (list Value))
  : Error + list Row :=
  match rows_raw with
  | [] => inr []
  | row_raw :: rest =>
      match parseRow signatureTypes query sourceTableName columns row_raw with
      | inl e => inl e
      | inr row =>
          match parseRows signatureTypes query sourceTableName columns rest with
          | inl e => inl e
          | inr rows => inr (row :: rows)
          end
      end
  end.

(** [parse] (lines 118-200). *)
Definition parse (raw : Raw) (query : string) (signatures : option (list string))
  : Error + Result :=
  let sourceTableName := extractTableName query in
  match buildSignatureTypes (default [] signatures) (TrackedTables ∅) with
  | inl e => inl e
  | inr signatureTypes =>
      match parseRows signatureTypes query sourceTableName
              (raw_columns raw) (raw_rows raw) with
      | inl e => inl e
      | inr rows => inr {| result_cursor := raw_cursor raw; result_rows := rows |}
      end
  end.

(** ** src/IndexSupply.ts: functions *)

(** [decoder.decode(value, { stream: true })]: the state after the chunk and
    the text it gives. *)
Fixpoint decode (st : DecoderState P) (value : list Byte.byte)
  : DecoderState P * string :=
  match value with
  | [] => (st, "")
  | b :: rest =>
      let (st1, out1) := decode_byte P st b in
      let (st2, out2) := decode st1 rest in
      (st2, out1 ++ out2)
  end.

(** The loop over the lines of one block (lines 457-468): every line that
    starts with [data:] is parsed and yielded; a line that does not parse
    ends the stream with a client [SseError]. *)
Fixpoint dataLines (lines : list string) : list Value * option Error :=
  match lines with
  | [] => ([], None)
  | line :: rest =>
      if JsString.startsWith "data:" line then
        let json := JsString.trim (JsString.drop 5 line) in
        match JSON_parse P json with
        | inl v => let (ys, e) := dataLines rest in (v :: ys, e)
        | inr message =>
            ([], Some (SseError (VString message) (VString "client")))
        end
      else dataLines rest
  end.

Definition inspect {A : Type} (a : A) : {b : A | a = b} := exist _ a eq_refl.

(** The inner [while (idx !== -1)] loop (lines 451-471) on the buffer: the
    payloads yielded, and the error raised or the buffer left. *)
Equations? flush (buffer : string) : list Value * (Error + string)
  by wf (String.length buffer) lt :=
  flush buffer with inspect (JsString.indexOf JsString.LFLF buffer) := {
    | exist _ None _ => ([], inr buffer)
    | exist _ (Some idx) Hidx =>
        let block := JsString.take idx buffer in
        match dataLines (JsString.split JsString.LF block) with
        | (ys, Some e) => (ys, inl e)
        | (ys, None) =>
            let r := flush (JsString.drop (idx + 2) buffer) in
            ((ys ++ fst r)%list, snd r)
        end }.
Proof.
  apply JsString.indexOf_bound in Hidx. simpl in Hidx.
  rewrite JsString.drop_length. lia.
Qed.

(** The outer [while (true)] loop (lines 444-472) over the results of
    [reader.read()], from a decoder state and a buffer.  Every way out runs
    [reader.cancel] in the [finally] block. *)
Fixpoint readLoop (st : DecoderState P) (buffer : string)
    (reads : list ReadResult) : list Value * StreamEnd :=
  match reads with
  | [] => ([], Pending)
  | Done :: _ => ([], Ended)
  | ReadError e :: _ => ([], Threw e)
  | Chunk value :: rest =>
      let (st', decoded) := decode st value in
      match flush (buffer ++ decoded) with
      | (ys, inl e) => (ys, Threw e)
      | (ys, inr buffer') =>
          let (ys', e) := readLoop st' buffer' rest in ((ys ++ ys')%list, e)
      end
  end.

(** [readStream] (lines 437-476). *)
Definition readStream (reads : list ReadResult) : list Value * StreamEnd :=
  readLoop (decoder_new P) "" reads.

(** The message of a [FetchRequestError] (lines 202-208):
    [JSON.parse(raw).message], or [raw] when that throws. *)
Definition errorMessage (raw : string) : Value :=
  match JSON_parse P raw with
  | inl VNull => VString raw
  | inl v => getProp "message" v
  | inr _ => VString raw
  end.

(** [retryCount = 50] and [retryCount = 5] *)
Definition liveRetryCount (options : Options) : Z :=
  default 50 (opt_retryCount options).

Definition fetchRetryCount (options : Options) : Z :=
  default 5 (opt_retryCount options).

(** The [try] block of [live] (lines 251-312) for one connection, entered
    with the counter [count]: the events, the counter on leaving the block
    and how the block is left.  The block starts with [new URL] (line
    252), which throws before any request when the base URL is not
    absolute. *)
Definition tryLive (c : CreateOptions) (options : Options) (f : Fetched)
    (count : Z) : list Event * Z * Completion unit :=
  let request := EmitRequest (liveRequest c options) in
  match URL_error P (baseUrlOf c ++ "/query-live"), f with
  | Some e, _ => ([], count, Throw e)
  | None, Rejected e => ([request], count, Throw e)
  | None, Resolved response =>
      let opened := [request; EmitResponse (status response)] in
      if negb (ok response) then
        (opened, count,
         Throw (FetchRequestError (errorMessage (text response)) (status response)))
      else
        match stream response with
        | None => (opened, count, Throw (BaseError "Response body is null"))
        | Some reads =>
            let (payloads, e) := readStream reads in
            let '(evs, count', thrown) := consume count payloads in
            ((opened ++ evs)%list, count',
             match thrown with
             | Some e' => Throw e'
             | None =>
                 match e with
                 | Ended => Return tt
                 | Threw e' => Throw e'
                 | Pending => Waiting
                 end
             end)
        end
  end.

(** The retry loop of [live] (lines 248-332) over the connections the
    environment plays. *)
Fixpoint liveLoop (c : CreateOptions) (options : Options)
    (script : list Attempt) (count : Z) (lastError : option Error)
    (shouldAbort : bool) : list Event * Completion unit :=
  if count <? liveRetryCount options then
    match script with
    | [] => ([], Waiting)
    | a :: rest =>
        let '(evs, count', done) := tryLive c options (fetched a) (count + 1) in
        match done with
        | Return _ => (evs, Return tt)
        | Waiting => (evs, Waiting)
        | Throw e =>
            let shouldAbort := shouldAbort || (opt_signal options && aborted a) in
            if shouldAbort then (evs, Return tt)
            else if negb (shouldRetry e) then ((evs ++ [EmitError e])%list, Throw e)
            else
              let shouldAbort :=
                shouldAbort || (opt_signal options && abortedInSleep a) in
              let (evs', done') :=
                liveLoop c options rest count' (Some e) shouldAbort in
              ((evs ++ [EmitError e; Sleep (backoff count')] ++ evs')%list, done')
        end
    end
  else
    ([], Throw (default (BaseError "Maximum retry attempts reached") lastError)).

(** [live] (lines 235-333). *)
Definition live (c : CreateOptions) (options : Options) (script : list Attempt)
  : list Event * Completion unit :=
  liveLoop c options script 0 None false.

(** The [try] block of [fetch] (lines 183-214) for one attempt. *)
Definition tryFetch (c : CreateOptions) (options : Options) (f : Fetched)
  : list Event * Completion Result :=
  let request := EmitRequest (fetchRequest c options) in
  match f with
  | Rejected e => ([request], Throw e)
  | Resolved response =>
      let opened := [request; EmitResponse (status response)] in
      if negb (ok response) then
        (opened,
         Throw (FetchRequestError (errorMessage (text response)) (status response)))
      else
        match json response with
        | inl e => (opened, Throw e)
        | inr [] => (opened, Throw (BaseError "No results returned"))
        | inr (result :: _) =>
            match parse result (opt_query options) (opt_signatures options) with
            | inl e => (opened, Throw e)
            | inr r => (opened, Return r)
            end
        end
  end.

(** The retry loop of [fetch] (lines 180-232). *)
Fixpoint fetchLoop (c : CreateOptions) (options : Options)
    (script : list Fetched) (count : Z) (lastError : option Error)
  : list Event * Completion Result :=
  if count <? fetchRetryCount options then
    match script with
    | [] => ([], Waiting)
    | f :: rest =>
        let count := count + 1 in
        match tryFetch c options f with
        | (evs, Return r) => (evs, Return r)
        | (evs, Waiting) => (evs, Waiting)
        | (evs, Throw e) =>
            if negb (shouldRetry e) then ((evs ++ [EmitError e])%list, Throw e)
            else
              let (evs', done) := fetchLoop c options rest count (Some e) in
              ((evs ++ [EmitError e; Sleep (backoff count)] ++ evs')%list, done)
        end
    end
  else
    ([], Throw (default (BaseError "Maximum retry attempts reached") lastError)).

(** [fetch] (lines 164-233).  [new URL] (line 169) runs before the loop and
    outside its [try]: when it throws, nothing is emitted. *)
Definition fetch (c : CreateOptions) (options : Options) (script : list Fetched)
  : list Event * Completion Result :=
  match URL_error P (baseUrlOf c ++ "/query") with
  | Some e => ([], Throw e)
  | None => fetchLoop c options script 0 None
  end.

End WithPlatform.

(** ** Properties stated by the specification, as predicates on runs *)

(** The cursor a [live] request carries when it follows the caller's
    options. *)
Definition callerCursor (options : Options) : option string :=
  if cursorTruthy (opt_cursor options) then cursorText <$> opt_cursor options
  else None.

(** An event that is a request carries the cursor [expected]. *)
Definition carriesCursor (expected : option string) (ev : Event) : Prop :=
  match ev with
  | EmitRequest r => params_get "cursor" (search r) = expected
  | _ => True
  end.

(** The cursor of a yielded batch. *)
Definition batchCursor (item : Value) : option string :=
  match getProp "cursor" item with
  | VString s => Some s
  | _ => None
  end.

(** Resumption as the specification words it: once a batch has been
    yielded, each later request carries the cursor of the batch yielded
    last.  [seen] is the cursor of the last batch so far. *)
Fixpoint resumesFromLastCursor (seen : option string) (evs : list Event) : Prop :=
  match evs with
  | [] => True
  | EmitRequest r :: rest =>
      match seen with
      | Some cur => params_get "cursor" (search r) = Some cur
      | None => True
      end /\ resumesFromLastCursor seen rest
  | Yield item :: rest =>
      resumesFromLastCursor
        (match batchCursor item with Some cur => Some cur | None => seen end) rest
  | _ :: rest => resumesFromLastCursor seen rest
  end.

Definition isYield (ev : Event) : bool :=
  match ev with Yield _ => true | _ => false end.

(** The counter rule as the specification words it: the counter goes to 0
    when the payloads yield a record and keeps its value when they yield
    none. *)
Definition resetsOnlyOnYield (count : Z) (payloads : list Value) : Prop :=
  let '(evs, count', _) := consume count payloads in
  count' = if existsb isYield evs then 0 else count.

(** A payload the loop of [live] handles without raising. *)
Definition accepted (data : Value) : bool :=
  match snd (handleData data) with None => true | Some _ => false end.

(** The caller's signal fires at some suspension point of the session:
    its event reaches the listener while a connection is awaited or during
    a backoff sleep. *)
Definition cancelled (options : Options) (script : list Attempt) : Prop :=
  opt_signal options = true /\
  Exists (fun a => aborted a = true \/ abortedInSleep a = true) script.

(** The first occurrence of each element, in order. *)
Fixpoint firstOccurrences (seen l : list string) : list string :=
  match l with
  | [] => []
  | x :: rest =>
      if bool_decide (x ∈ seen) then firstOccurrences seen rest
      else x :: firstOccurrences (x :: seen) rest
  end.

(** The keys of a record as the specification words them: the column
    names in the order of the columns, a name that occurs again keeping its
    first place. *)
Definition keysInColumnOrder (columns : list Column) (row : Row) : Prop :=
  keys row = firstOccurrences [] (map name columns).

(** Ascending order of the indices. *)
Definition indexLe (k k' : string) : Prop := indexValue k <= indexValue k'.

Definition notIndex (k : string) : bool := negb (isArrayIndex k).

(** ** Inputs of the examples *)

(** A signature table: [event Transfer(..., uint256 value)], and an event
    named like the standard table [txs] with a string input [hash]. *)
Definition transferTypes : gmap string (TypesObject ExampleForeign) :=
  <[ "txs" := TrackedTypes {[ "hash" := z_string ]} ]>
    {[ "transfer" := TrackedTypes {[ "value" := z_transform ToBigInt ]} ]}.

(** A payload whose second column is named by an array index. *)
Definition indexedRaw : Raw :=
  {| raw_columns := [ {| name := "b"; pgtype := "text" |};
                      {| name := "1"; pgtype := "text" |} ];
     raw_cursor := "1-5";
     raw_rows := [ [VString "x"; VString "y"] ] |}.

(** A payload with two rows and a column name that occurs twice. *)
Definition exampleRaw : Raw :=
  {| raw_columns := [ {| name := "a"; pgtype := "text" |};
                      {| name := "b"; pgtype := "int8" |};
                      {| name := "a"; pgtype := "text" |} ];
     raw_cursor := "1-5";
     raw_rows := [ [VString "x"; VNumber 1; VString "y"];
                   [VString "z"; VNumber 2; VString "w"] ] |}.

(** A stream in three chunks: a complete frame cut in two, then a [data:]
    line that no separator follows. *)
Definition headBytes : list Byte.byte :=
  bytes ("data: " ++ exampleBatch ++ JsString.LFLF).

Definition trailingBytes : list Byte.byte := bytes "data: 1".

Definition threeChunks : list (list Byte.byte) :=
  [ bytes "data: ";
    bytes (exampleBatch ++ String JsString.LF "");
    bytes (String JsString.LF "data: 1") ].


Definition exampleClient : CreateOptions := {| apiKey := None; baseUrl := None |}.

Definition exampleOptions (retryCount : option Z) : Options :=
  {| opt_cursor := None;
     opt_signatures := None;
     opt_query := "select 1";
     opt_retryCount := retryCount;
     opt_signal := true |}.

Definition streaming (reads : list ReadResult) : Fetched :=
  Resolved {| status := 200; text := ""; json := inr []; stream := Some reads |}.

Definition failing (code : Z) : Fetched :=
  Resolved {| status := code; text := "oops"; json := inr []; stream := None |}.

Definition quiet (f : Fetched) : Attempt :=
  {| fetched := f; aborted := false; abortedInSleep := false |}.

(** A connection that yields one batch and then reports a server error. *)
Definition batchThenServerError : Attempt :=
  quiet (streaming
    [Chunk (bytes ("data: " ++ exampleBatch ++ JsString.LFLF));
     Chunk (bytes ("data: " ++ exampleServerError ++ JsString.LFLF));
     Done]).

(** A connection refused with status 500, the signal firing during the
    sleep that follows. *)
Definition cancelledInSleep : Attempt :=
  {| fetched := failing 500; aborted := false; abortedInSleep := true |}.

(** A connection whose [fetch] is rejected because the signal has fired
    while it was awaited. *)
Definition cancelledInFetch : Attempt :=
  {| fetched := Rejected AbortError; aborted := true; abortedInSleep := false |}.

(** ** The retry policy *)

Lemma isServer_iff (type : Value) : isServer type = true <-> type = VString "server".
Proof.
  destruct type; simpl; try (split; [discriminate | intros H; discriminate H]).
  rewrite String.eqb_eq. split; [intros ->; reflexivity | intros H; now inversion H].
Qed.

(** C2, as the code has it: [shouldRetry] holds exactly for a server
    [SseError] and for a [FetchRequestError] whose status is 408, 429 or at
    least 500 (no upper end); every other error is terminal. *)
Theorem shouldRetry_iff_retryable (error : Error) :
  shouldRetry error = true <-> retryable error.
Proof.
  destruct error as [m st|m ty|m|n m]; simpl.
  - rewrite !orb_true_iff, !Z.eqb_eq, Z.leb_le. tauto.
  - apply isServer_iff.
  - split; [discriminate | tauto].
  - split; [discriminate | tauto].
Qed.

(** C2, counterexample: a request error with status 600 is retried although
    600 lies outside 408, 429 and [500,599]. *)
Lemma shouldRetry_status_600 :
  shouldRetry (FetchRequestError (VString "late") 600) = true /\
  ~ retryable_spec (FetchRequestError (VString "late") 600).
Proof. split; [reflexivity | simpl; lia]. Qed.

(** Cancellation, decode errors and client stream errors are terminal. *)
Lemma shouldRetry_terminal (message : Value) (text : string) :
  shouldRetry AbortError = false /\
  shouldRetry (SseError message (VString "client")) = false /\
  shouldRetry (BaseError text) = false.
Proof. repeat split. Qed.

(** ** Cursors in requests *)

Lemma assoc_app_ne {A : Type} (k k' : string) (v : A) (l : list (string * A)) :
  k <> k' -> assoc k (l ++ [(k', v)])%list = assoc k l.
Proof.
  intros Hne. induction l as [|[k0 v0] l IH]; simpl.
  - destruct (String.eqb_spec k k'); [contradiction | reflexivity].
  - destruct (String.eqb k k0); [reflexivity | exact IH].
Qed.

Lemma params_get_remove_ne (k k' : string) (params : SearchParams) :
  k <> k' -> params_get k (params_remove k' params) = params_get k params.
Proof.
  intros Hne. unfold params_get.
  induction params as [|[k0 v0] l IH]; simpl; [reflexivity|].
  destruct (String.eqb_spec k0 k') as [->|Hk0]; simpl.
  - destruct (String.eqb_spec k k'); [contradiction | exact IH].
  - destruct (String.eqb k k0); [reflexivity | exact IH].
Qed.

Lemma params_get_set_ne (k k' v : string) (params : SearchParams) :
  k <> k' -> params_get k (params_set k' v params) = params_get k params.
Proof.
  intros Hne. unfold params_get.
  induction params as [|[k0 v0] l IH]; simpl.
  - destruct (String.eqb_spec k k'); [contradiction | reflexivity].
  - destruct (String.eqb_spec k0 k') as [->|Hk0]; simpl.
    + destruct (String.eqb_spec k k'); [contradiction|].
      apply (params_get_remove_ne k k' l Hne).
    + destruct (String.eqb k k0); [reflexivity | exact IH].
Qed.

Lemma params_get_signatures (sigs : list string) (params : SearchParams) :
  params_get "cursor"
    (fold_left (fun ps sig => params_append "signatures" sig ps) sigs params)
  = params_get "cursor" params.
Proof.
  revert params. induction sigs as [|sig sigs IH]; intros params; simpl.
  - reflexivity.
  - rewrite IH. unfold params_append, params_get.
    apply assoc_app_ne. discriminate.
Qed.

(** The cursor parameter of a [live] request is the caller's cursor when it
    is truthy, and is absent otherwise. *)
Lemma liveParams_cursor (options : Options) :
  params_get "cursor" (liveParams options) = callerCursor options.
Proof.
  unfold liveParams, callerCursor.
  rewrite params_get_set_ne by discriminate.
  destruct (opt_signatures options) as [sigs|];
    [rewrite params_get_signatures|];
    destruct (opt_cursor options) as [[s|ch bl]|]; simpl;
    try reflexivity; destruct (JsString.truthy s); reflexivity.
Qed.


(** ** The attempt counter of [live] *)

(** C4, as the code has it: the counter leaves the payload loop at 0 as
    soon as the first payload is handled without raising, whether or not
    that payload holds any item, and with its value on entry otherwise. *)
Theorem consume_counter (count : Z) (payloads : list Value) :
  snd (fst (consume count payloads)) =
  match payloads with
  | [] => count
  | data :: _ => if accepted data then 0 else count
  end.
Proof.
  assert (Hzero : forall l, snd (fst (consume 0 l)) = 0).
  { induction l as [|d l IH]; simpl; [reflexivity|].
    destruct (handleData d) as [evs [e|]]; simpl; [reflexivity|].
    destruct (consume 0 l) as [[evs' c'] e']. simpl in *. exact IH. }
  destruct payloads as [|data rest]; simpl; [reflexivity|].
  unfold accepted. destruct (handleData data) as [evs [e|]]; simpl; [reflexivity|].
  specialize (Hzero rest). destruct (consume 0 rest) as [[evs' c'] e'].
  exact Hzero.
Qed.

(** C4, counterexample: the empty array is a payload that yields nothing,
    and the counter goes from 3 to 0 all the same. *)
Lemma empty_payload_resets_counter :
  consume 3 [VArray []] = ([], 0, None) /\ ~ resetsOnlyOnYield 3 [VArray []].
Proof. split; [reflexivity | unfold resetsOnlyOnYield; simpl; lia]. Qed.

Section LiveProperties.

Variable P : Platform.
Variable c : CreateOptions.
Variable options : Options.

(** The payload loop emits yields only. *)
Lemma consume_yields (count : Z) (payloads : list Value) :
  Forall (fun ev => isYield ev = true) (fst (fst (consume count payloads))).
Proof.
  revert count. induction payloads as [|d l IH]; intros count; simpl.
  - constructor.
  - destruct (handleData d) as [evs oe] eqn:Hd.
    assert (Hevs : Forall (fun ev => isYield ev = true) evs).
    { destruct d; simpl in Hd; inversion Hd; subst; try constructor.
      - clear Hd. induction items as [|x items IHitems]; simpl;
          constructor; [reflexivity | exact IHitems].
      - destruct (assoc "error" fields); inversion Hd; constructor. }
    destruct oe as [e|]; simpl; [exact Hevs|].
    specialize (IH 0). destruct (consume 0 l) as [[evs' c'] e']. simpl in *.
    apply Forall_app. split; assumption.
Qed.

(** One connection emits its own request first and no other request. *)
Lemma tryLive_requests (f : Fetched) (count : Z) :
  Forall (carriesCursor (callerCursor options))
    (fst (fst (tryLive P c options f count))).
Proof.
  assert (Hreq : carriesCursor (callerCursor options)
                   (EmitRequest (liveRequest c options))).
  { simpl. apply liveParams_cursor. }
  unfold tryLive.
  destruct (URL_error P (baseUrlOf c ++ "/query-live")) as [invalid|];
    [constructor|].
  destruct f as [e|response]; simpl.
  - repeat constructor. exact Hreq.
  - destruct (negb (ok response)); simpl.
    + repeat constructor. exact Hreq.
    + destruct (stream response) as [reads|]; simpl.
      * destruct (readStream P reads) as [payloads e].
        pose proof (consume_yields count payloads) as Hy.
        destruct (consume count payloads) as [[evs c'] thrown]. simpl in *.
        constructor; [exact Hreq|]. constructor; [exact I|].
        eapply Forall_impl; [exact Hy|].
        intros ev Hev. destruct ev; simpl in *; try exact I; discriminate.
      * repeat constructor. exact Hreq.
Qed.

(** C1, as the code has it: every request of a [live] session, the first
    one and each reconnection alike, carries the cursor of the caller's
    options (none when that cursor is absent or empty); no cursor of a
    yielded batch takes its place, and no position is computed. *)
Theorem live_requests_carry_caller_cursor
    (script : list Attempt) (count : Z) (lastError : option Error)
    (shouldAbort : bool) :
  Forall (carriesCursor (callerCursor options))
    (fst (liveLoop P c options script count lastError shouldAbort)).
Proof.
  revert count lastError shouldAbort.
  induction script as [|a rest IH]; intros count lastError shouldAbort; simpl.
  - destruct (count <? liveRetryCount options); constructor.
  - destruct (count <? liveRetryCount options); [|constructor].
    pose proof (tryLive_requests (fetched a) (count + 1)) as Htry.
    destruct (tryLive P c options (fetched a) (count + 1)) as [[evs count'] done].
    simpl in Htry. destruct done as [u|e|]; simpl; try exact Htry.
    destruct (shouldAbort || opt_signal options && aborted a); simpl; [exact Htry|].
    destruct (negb (shouldRetry e)); simpl.
    + apply Forall_app. split; [exact Htry|]. repeat constructor.
    + match goal with
      | |- context [liveLoop P c options rest count' (Some e) ?sa] =>
          specialize (IH count' (Some e) sa);
          destruct (liveLoop P c options rest count' (Some e) sa) as [evs' done']
      end.
      simpl in *. apply Forall_app. split; [exact Htry|].
      constructor; [exact I|]. constructor; [exact I|]. exact IH.
Qed.

(** C8, as the code has it.  For [live]: when an [abort] event of the
    caller's signal has reached the listener of [live] by the time the
    failure of a connection is caught (the signal fires after [live] has
    started, while the connection is awaited), the session ends there
    without an error: no [error] event, no sleep, no further request.
    (The backoff sleep itself does not watch the signal.)  For [fetch]: an
    attempt rejected with [AbortError] is reported and thrown to the
    caller. *)
Theorem cancellation_during_io
    (a : Attempt) (rest : list Attempt) (count count' : Z)
    (lastError : option Error) (shouldAbort : bool)
    (evs : list Event) (e : Error)
    (script : list Fetched) (n : Z) (last : option Error) :
  opt_signal options = true ->
  aborted a = true ->
  count < liveRetryCount options ->
  tryLive P c options (fetched a) (count + 1) = (evs, count', Throw e) ->
  n < fetchRetryCount options ->
  liveLoop P c options (a :: rest) count lastError shouldAbort = (evs, Return tt)
  /\ fetchLoop P c options (Rejected AbortError :: script) n last =
       ([EmitRequest (fetchRequest c options); EmitError AbortError],
        Throw AbortError).
Proof.
  intros Hsignal Haborted Hcount Htry Hn. split.
  - simpl. apply Z.ltb_lt in Hcount. rewrite Hcount, Htry, Hsignal, Haborted.
    rewrite orb_true_r. reflexivity.
  - simpl. apply Z.ltb_lt in Hn. rewrite Hn. reflexivity.
Qed.

End LiveProperties.

(** C1, counterexample: the first connection yields a batch whose cursor is
    [1-5] and then fails with a server error; the request that reopens the
    connection has no cursor parameter. *)
Lemma reconnect_ignores_batch_cursor :
  ~ resumesFromLastCursor None
      (fst (live examplePlatform exampleClient (exampleOptions None)
              [batchThenServerError; quiet (streaming [Done])])).
Proof. vm_compute. intros [_ [H _]]. discriminate H. Qed.

(** C8, witness: the signal fires while the first connection is opened,
    and its event reaches the listener. *)
Lemma cancellation_during_io_witness :
  liveLoop examplePlatform exampleClient (exampleOptions None)
    [cancelledInFetch] 0 None false =
    ([EmitRequest (liveRequest exampleClient (exampleOptions None))], Return tt)
  /\ fetchLoop examplePlatform exampleClient (exampleOptions None)
       [Rejected AbortError] 0 None =
       ([EmitRequest (fetchRequest exampleClient (exampleOptions None));
         EmitError AbortError],
        Throw AbortError).
Proof.
  apply (cancellation_during_io examplePlatform exampleClient
           (exampleOptions None) cancelledInFetch [] 0 1 None false
           [EmitRequest (liveRequest exampleClient (exampleOptions None))]
           AbortError [] 0 None);
    reflexivity.
Defined.

(** C8, counterexample: the signal fires during the backoff sleep.  With one
    attempt allowed the session then throws the error of that attempt; with
    two, it first issues a second request. *)
Lemma cancel_during_sleep_raises :
  cancelled (exampleOptions (Some 1)) [cancelledInSleep] /\
  snd (live examplePlatform exampleClient (exampleOptions (Some 1))
         [cancelledInSleep])
  = Throw (FetchRequestError (VString "oops") 500) /\
  length (List.filter
            (fun ev => match ev with EmitRequest _ => true | _ => false end)
            (fst (live examplePlatform exampleClient (exampleOptions (Some 2))
                    [cancelledInSleep; quiet (Rejected AbortError)])))
  = 2%nat.
Proof.
  split; [|split; reflexivity].
  split; [reflexivity|]. constructor. right. reflexivity.
Qed.

(** A connection of a session whose signal had aborted before [live]
    started: the platform rejects the request, and no event reaches the
    listener. *)
Definition abortedBefore : Attempt :=
  {| fetched := Rejected AbortError; aborted := false; abortedInSleep := false |}.

(** The session of a signal that had aborted before [live] registered its
    listener: every request is rejected with [AbortError] and no [abort]
    event is dispatched any more. *)
Definition abortedAtStart (script : list Attempt) : Prop :=
  Forall (fun a => a = abortedBefore) script.

(** X22: a signal that has aborted before [live] registers its listener is
    not noticed.  No event reaches the listener, so when the platform
    rejects the first request with [AbortError], [live] emits the request
    and the error and throws the [AbortError] instead of ending in
    silence. *)
Theorem aborted_signal_is_not_noticed
    (P : Platform) (c : CreateOptions) (options : Options)
    (a : Attempt) (rest : list Attempt) :
  URL_error P (baseUrlOf c ++ "/query-live") = None ->
  0 < liveRetryCount options ->
  abortedAtStart (a :: rest) ->
  live P c options (a :: rest) =
    ([EmitRequest (liveRequest c options); EmitError AbortError],
     Throw AbortError).
Proof.
  intros Hurl Hcount Hscript. apply Forall_cons in Hscript.
  destruct Hscript as [-> _]. unfold live. cbn [liveLoop].
  apply Z.ltb_lt in Hcount. rewrite Hcount. unfold tryLive.
  rewrite Hurl. cbn [fetched abortedBefore aborted]. rewrite andb_false_r.
  reflexivity.
Qed.

(** X22, witness: the default client and options with a signal. *)
Lemma aborted_signal_is_not_noticed_witness :
  live examplePlatform exampleClient (exampleOptions None) [abortedBefore] =
    ([EmitRequest (liveRequest exampleClient (exampleOptions None));
      EmitError AbortError],
     Throw AbortError).
Proof.
  apply (aborted_signal_is_not_noticed examplePlatform exampleClient
           (exampleOptions None) abortedBefore []);
    [reflexivity | reflexivity | repeat constructor].
Defined.

(** ** Searching and slicing a buffer that grows at its end *)

Lemma prefix_append_long (p s t : string) :
  (String.length p <= String.length s)%nat ->
  String.prefix p (s ++ t) = String.prefix p s.
Proof.
  revert s. induction p as [|a p IH]; intros s Hlen.
  - destruct s, t; reflexivity.
  - destruct s as [|b s]; simpl in Hlen; [lia|].
    rewrite JsString.append_cons. simpl.
    destruct (ascii_dec a b); [apply IH; lia | reflexivity].
Qed.

Lemma prefix_append_true (p s t : string) :
  String.prefix p s = true -> String.prefix p (s ++ t) = true.
Proof.
  intros H. rewrite prefix_append_long; [exact H|].
  now apply JsString.prefix_length.
Qed.

(** The first match in a buffer is still the first match after more text
    arrives. *)
Lemma indexOf_append (p s t : string) (i : nat) :
  JsString.indexOf p s = Some i -> JsString.indexOf p (s ++ t) = Some i.
Proof.
  revert i. induction s as [|a s IH]; intros i.
  - cbn [JsString.indexOf]. unfold JsString.startsWith.
    destruct (String.prefix p "") eqn:E; [|discriminate].
    intros Hi. destruct p; [|discriminate E].
    destruct t; exact Hi.
  - rewrite JsString.append_cons. cbn [JsString.indexOf].
    unfold JsString.startsWith. rewrite <- JsString.append_cons.
    destruct (String.prefix p (String a s)) eqn:E.
    + intros Hi. now rewrite (prefix_append_true _ _ t E).
    + destruct (JsString.indexOf p s) as [j|] eqn:Hj; [|discriminate].
      intros Hi. pose proof (JsString.indexOf_bound _ _ _ Hj) as Hb.
      rewrite prefix_append_long, E by (simpl; lia).
      now rewrite (IH j eq_refl).
Qed.

Lemma take_append (n : nat) (s t : string) :
  (n <= String.length s)%nat -> JsString.take n (s ++ t) = JsString.take n s.
Proof.
  revert s. induction n as [|n IH]; intros s Hn.
  - destruct s, t; reflexivity.
  - destruct s as [|a s]; simpl in Hn; [lia|].
    rewrite JsString.append_cons. simpl. f_equal. apply IH. lia.
Qed.

Lemma drop_append (n : nat) (s t : string) :
  (n <= String.length s)%nat ->
  JsString.drop n (s ++ t) = JsString.drop n s ++ t.
Proof.
  revert s. induction n as [|n IH]; intros s Hn.
  - reflexivity.
  - destruct s as [|a s]; simpl in Hn; [lia|].
    rewrite JsString.append_cons. simpl. apply IH. lia.
Qed.

Lemma indexOf_tail_none (p : string) (a : ascii) (s : string) :
  JsString.indexOf p (String a s) = None -> JsString.indexOf p s = None.
Proof.
  cbn [JsString.indexOf].
  destruct (JsString.startsWith p (String a s)); [discriminate|].
  destruct (JsString.indexOf p s); [discriminate | reflexivity].
Qed.

(** The separator at the start of a buffer. *)
Lemma indexOf_LFLF_cons (a : ascii) (s : string) :
  JsString.indexOf JsString.LFLF (String a s) =
  if Ascii.eqb a JsString.LF && JsString.startsWith (String JsString.LF "") s
  then Some O
  else S <$> JsString.indexOf JsString.LFLF s.
Proof.
  cbn [JsString.indexOf]. unfold JsString.startsWith, JsString.LFLF.
  cbn [String.prefix].
  destruct (ascii_dec JsString.LF a) as [<-|Hne].
  - rewrite Ascii.eqb_refl. cbn [andb]. reflexivity.
  - destruct (Ascii.eqb_spec a JsString.LF) as [->|_]; [contradiction|].
    reflexivity.
Qed.

Section StreamProperties.

Variable P : Platform.

(** *** The inner loop, one step at a time *)

Lemma flush_none (buffer : string) :
  JsString.indexOf JsString.LFLF buffer = None ->
  flush P buffer = ([], inr buffer).
Proof.
  intros Hnone. funelim (flush P buffer).
  - exfalso. clear Heqcall. congruence.
  - reflexivity.
Qed.

Lemma flush_some (buffer : string) (idx : nat) :
  JsString.indexOf JsString.LFLF buffer = Some idx ->
  flush P buffer =
  match dataLines P (JsString.split JsString.LF (JsString.take idx buffer)) with
  | (ys, Some e) => (ys, inl e)
  | (ys, None) =>
      let r := flush P (JsString.drop (idx + 2) buffer) in
      ((ys ++ fst r)%list, snd r)
  end.
Proof.
  intros Hsome. funelim (flush P buffer).
  - clear Heqcall. assert (idx = idx0) as -> by congruence.
    destruct (dataLines P _) as [ys [e|]]; reflexivity.
  - exfalso. clear Heqcall. congruence.
Qed.

End StreamProperties.

Section DecoderProperties.

Variable P : Platform.

(** *** A buffer fed in two parts *)

(** Flushing a buffer [x] followed by more text [y] gives what flushing [x]
    gives, then what flushing the rest of [x] followed by [y] gives. *)
Lemma flush_append (x y : string) :
  flush P (x ++ y) =
  match flush P x with
  | (ys, inl e) => (ys, inl e)
  | (ys, inr rest) =>
      let r := flush P (rest ++ y) in ((ys ++ fst r)%list, snd r)
  end.
Proof.
  remember (String.length x) as n eqn:Hn. revert x Hn.
  induction n as [n IH] using lt_wf_ind. intros x Hn.
  destruct (JsString.indexOf JsString.LFLF x) as [idx|] eqn:Hidx.
  - pose proof (JsString.indexOf_bound _ _ _ Hidx) as Hb. simpl in Hb.
    rewrite (flush_some P (x ++ y) idx) by now apply indexOf_append.
    rewrite (flush_some P x idx Hidx).
    rewrite take_append by lia. rewrite drop_append by lia.
    destruct (dataLines P _) as [ys [e|]]; [reflexivity|].
    cbv zeta.
    rewrite (IH (String.length (JsString.drop (idx + 2) x)));
      [| rewrite JsString.drop_length; lia | reflexivity].
    destruct (flush P (JsString.drop (idx + 2) x)) as [ys1 [e|rest]]; simpl.
    + reflexivity.
    + now rewrite app_assoc.
  - rewrite (flush_none P x Hidx). cbv zeta. simpl.
    now destruct (flush P (x ++ y)).
Qed.

(** What the inner loop leaves in the buffer holds no separator. *)
Lemma flush_rest_clean (buffer : string) (ys : list Value) (rest : string) :
  flush P buffer = (ys, inr rest) ->
  JsString.indexOf JsString.LFLF rest = None.
Proof.
  remember (String.length buffer) as n eqn:Hn. revert buffer ys rest Hn.
  induction n as [n IH] using lt_wf_ind. intros buffer ys rest Hn.
  destruct (JsString.indexOf JsString.LFLF buffer) as [idx|] eqn:Hidx.
  - pose proof (JsString.indexOf_bound _ _ _ Hidx) as Hb. simpl in Hb.
    rewrite (flush_some P buffer idx Hidx).
    destruct (dataLines P _) as [ys0 [e|]]; [discriminate|].
    cbv zeta.
    destruct (flush P (JsString.drop (idx + 2) buffer)) as [ys1 o] eqn:Hrec.
    simpl. intros Heq. inversion Heq; subst.
    eapply (IH (String.length (JsString.drop (idx + 2) buffer)));
      [rewrite JsString.drop_length; lia | reflexivity | exact Hrec].
  - rewrite (flush_none P buffer Hidx). intros Heq. inversion Heq; subst.
    exact Hidx.
Qed.

(** The decoder reads a chunk byte by byte, so two chunks decode as their
    concatenation does. *)
Lemma decode_app (st : DecoderState P) (a b : list Byte.byte) :
  decode P st (a ++ b) =
  let (st1, out1) := decode P st a in
  let (st2, out2) := decode P st1 b in
  (st2, out1 ++ out2).
Proof.
  revert st. induction a as [|x a IH]; intros st; simpl.
  - destruct (decode P st b). reflexivity.
  - destruct (decode_byte P st x) as [st1 o1]. rewrite IH.
    destruct (decode P st1 a) as [st2 o2].
    destruct (decode P st2 b) as [st3 o3].
    now rewrite JsString.append_assoc.
Qed.

Lemma readLoop_chunks (chunks : list (list Byte.byte)) (reads : list ReadResult)
    (st : DecoderState P) (buffer : string) :
  JsString.indexOf JsString.LFLF buffer = None ->
  readLoop P st buffer (map Chunk chunks ++ reads) =
  readLoop P st buffer (Chunk (concat chunks) :: reads).
Proof.
  revert st buffer. induction chunks as [|ch chunks IH]; intros st buffer Hclean.
  - simpl. rewrite JsString.append_nil_r, (flush_none P buffer Hclean).
    now destruct (readLoop P st buffer reads).
  - cbn [map app concat readLoop]. rewrite decode_app.
    destruct (decode P st ch) as [st1 d1].
    destruct (decode P st1 (concat chunks)) as [st2 d2] eqn:Hd2.
    rewrite <- JsString.append_assoc, (flush_append (buffer ++ d1) d2).
    destruct (flush P (buffer ++ d1)) as [ys [e|rest]] eqn:Hflush;
      [reflexivity|].
    rewrite IH by (eapply flush_rest_clean; exact Hflush).
    cbn [readLoop]. rewrite Hd2. cbv zeta.
    destruct (flush P (rest ++ d2)) as [ys' [e|rest']]; simpl.
    + reflexivity.
    + destruct (readLoop P st2 rest' reads) as [ys'' e].
      now rewrite app_assoc.
Qed.

(** C3: the decoder does not see chunk boundaries.  Reading a byte sequence
    in any number of chunks, cut anywhere, yields the payloads and the end
    that reading it as one chunk yields, whatever follows on the stream. *)
Theorem readStream_chunk_insensitive
    (chunks : list (list Byte.byte)) (reads : list ReadResult) :
  readStream P (map Chunk chunks ++ reads) =
  readStream P (Chunk (concat chunks) :: reads).
Proof. unfold readStream. now apply readLoop_chunks. Qed.

End DecoderProperties.

(** ** What follows the last separator *)

Lemma startsWith_LF_cases (s : string) :
  JsString.startsWith (String JsString.LF "") s = true ->
  exists s', s = String JsString.LF s'.
Proof.
  unfold JsString.startsWith. destruct s as [|b s]; cbn [String.prefix].
  - discriminate.
  - destruct (ascii_dec JsString.LF b) as [<-|]; [|discriminate].
    intros _. now exists s.
Qed.

(** A buffer without separator, followed by a separator: the separator is
    found, and at most one line feed is left behind it. *)
Lemma clean_then_separator (r : string) :
  JsString.indexOf JsString.LFLF r = None ->
  exists i,
    JsString.indexOf JsString.LFLF (r ++ JsString.LFLF) = Some i /\
    (JsString.drop (i + 2) (r ++ JsString.LFLF) = "" \/
     JsString.drop (i + 2) (r ++ JsString.LFLF) = String JsString.LF "").
Proof.
  induction r as [|a r IH]; intros Hclean.
  - exists O. split; [reflexivity | left; reflexivity].
  - rewrite indexOf_LFLF_cons in Hclean.
    destruct (Ascii.eqb a JsString.LF
              && JsString.startsWith (String JsString.LF "") r) eqn:Hhead;
      [discriminate|].
    destruct (JsString.indexOf JsString.LFLF r) as [j|] eqn:Hr; [discriminate|].
    destruct (IH eq_refl) as [i [Hi Hdrop]].
    rewrite JsString.append_cons, indexOf_LFLF_cons.
    destruct r as [|b r].
    + destruct (Ascii.eqb a JsString.LF) eqn:Ha.
      * exists O. split; [reflexivity | right; reflexivity].
      * exists (S i). cbn [andb]. rewrite Hi. split; [reflexivity | exact Hdrop].
    + assert (Hsame : JsString.startsWith (String JsString.LF "")
                        (String b r ++ JsString.LFLF)
                      = JsString.startsWith (String JsString.LF "") (String b r)).
      { unfold JsString.startsWith. apply prefix_append_long. simpl. lia. }
      rewrite Hsame, Hhead, Hi.
      exists (S i). split; [reflexivity | exact Hdrop].
Qed.

Section TrailingBytes.

Variable P : Platform.

Lemma flush_after_separator (pre : string) (ys : list Value) (rest : string) :
  pre = "" \/ (exists h, pre = h ++ JsString.LFLF) ->
  flush P pre = (ys, inr rest) ->
  rest = "" \/ rest = String JsString.LF "".
Proof.
  intros [->|[h ->]].
  - rewrite flush_none by reflexivity. intros Heq. inversion Heq. now left.
  - rewrite flush_append.
    destruct (flush P h) as [ys1 [e|r1]] eqn:Hh; [discriminate|].
    pose proof (flush_rest_clean P h ys1 r1 Hh) as Hclean.
    destruct (clean_then_separator r1 Hclean) as [i [Hi Hdrop]].
    cbv zeta. rewrite (flush_some P _ i Hi).
    destruct (dataLines P _) as [ys2 [e|]]; [discriminate|].
    cbv zeta.
    destruct Hdrop as [Hdrop|Hdrop]; rewrite Hdrop;
      rewrite flush_none by reflexivity; simpl;
      intros Heq; inversion Heq; subst; [left | right]; reflexivity.
Qed.

(** Text without separator completes no frame, even behind a line feed left
    in the buffer. *)
Lemma flush_clean_tail (rest tail : string) :
  rest = "" \/ rest = String JsString.LF "" ->
  JsString.indexOf JsString.LFLF tail = None ->
  exists rest', flush P (rest ++ tail) = ([], inr rest').
Proof.
  intros [->| ->] Hclean.
  - exists tail. now apply flush_none.
  - rewrite JsString.append_cons, JsString.append_nil_l.
    destruct (JsString.startsWith (String JsString.LF "") tail) eqn:Hhead.
    + destruct (startsWith_LF_cases tail Hhead) as [tail' ->].
      exists tail'.
      assert (Hidx : JsString.indexOf JsString.LFLF
                       (String JsString.LF (String JsString.LF tail')) = Some O).
      { now rewrite indexOf_LFLF_cons, Ascii.eqb_refl, Hhead. }
      rewrite (flush_some P _ O Hidx).
      pose proof (indexOf_tail_none _ _ _ Hclean) as Hclean'.
      cbn [JsString.take JsString.drop JsString.split dataLines Nat.add
           JsString.startsWith String.prefix].
      rewrite (flush_none P tail' Hclean'). reflexivity.
    + eexists. apply flush_none.
      rewrite indexOf_LFLF_cons, Hhead, Hclean, andb_false_r. reflexivity.
Qed.

(** C9: bytes that follow the last separator are dropped at the end of the
    stream.  When the text of [head] is empty or ends with a separator and
    the text of [trailing] holds none, a stream carrying [head] then
    [trailing], cut into chunks anywhere, and ended gracefully yields
    exactly what the stream carrying [head] alone yields, and ends the same
    way: the trailing text is never parsed or yielded and raises nothing,
    even when it holds a complete [data:] line. *)
Theorem trailing_partial_frame_discarded
    (chunks : list (list Byte.byte)) (head trailing : list Byte.byte)
    (st1 st2 : DecoderState P) (pre tail : string) :
  decode P (decoder_new P) head = (st1, pre) ->
  pre = "" \/ (exists h, pre = h ++ JsString.LFLF) ->
  decode P st1 trailing = (st2, tail) ->
  JsString.indexOf JsString.LFLF tail = None ->
  concat chunks = (head ++ trailing)%list ->
  readStream P (map Chunk chunks ++ [Done]) = readStream P [Chunk head; Done].
Proof.
  intros Hhead Hpre Htrailing Hclean Hchunks.
  unfold readStream. rewrite readLoop_chunks by reflexivity. rewrite Hchunks.
  cbn [readLoop].
  rewrite decode_app, Hhead, Htrailing, !JsString.append_nil_l, flush_append.
  destruct (flush P pre) as [ys [e|rest]] eqn:Hflush; [reflexivity|].
  destruct (flush_clean_tail rest tail
              (flush_after_separator _ _ _ Hpre Hflush) Hclean)
    as [rest' Hrest'].
  cbv zeta. rewrite Hrest'. simpl. now rewrite !app_nil_r.
Qed.

End TrailingBytes.

(** C9, witness: a frame followed by a complete [data:] line without
    separator, in three chunks. *)
Lemma trailing_partial_frame_discarded_witness :
  readStream examplePlatform (map Chunk threeChunks ++ [Done]) =
    readStream examplePlatform [Chunk headBytes; Done] /\
  readStream examplePlatform [Chunk headBytes; Done] =
    ([exampleBatchValue], Ended).
Proof.
  split; [|reflexivity].
  apply (trailing_partial_frame_discarded examplePlatform threeChunks
           headBytes trailingBytes tt tt
           ("data: " ++ exampleBatch ++ JsString.LFLF) "data: 1");
    try reflexivity.
  right. exists ("data: " ++ exampleBatch). reflexivity.
Defined.

(** ** Row normalisation *)

Lemma firstGroup_truthy (groups : list (option string)) (t : string) :
  firstGroup groups = Some t -> JsString.truthy t = true.
Proof.
  unfold firstGroup. destruct (groups !! 1%nat) as [[s|]|]; try discriminate.
  destruct (JsString.truthy s) eqn:Hs; [|discriminate].
  intros Heq. inversion Heq; subst. exact Hs.
Qed.

Section ResultProperties.

Variable P : Platform.

(** A resolved table name is never the empty string. *)
Lemma resolveTableName_truthy (name query : string) (t : string) :
  resolveTableName P name query (extractTableName P query) = inr (Some t) ->
  JsString.truthy t = true.
Proof.
  unfold resolveTableName, getColumnTableName, extractTableName.
  destruct (RegExp_match P (columnPattern name) "i" query) as [e| |groups].
  - discriminate.
  - destruct (RegExp_match P _ "i" (JsString.toLowerCase query)) as [e| |g];
      try discriminate.
    intros Heq. inversion Heq as [Hg]. now apply firstGroup_truthy in Hg.
  - destruct (firstGroup groups) as [t'|] eqn:Hg.
    + intros Heq. inversion Heq; subst. now apply firstGroup_truthy in Hg.
    + destruct (RegExp_match P _ "i" (JsString.toLowerCase query)) as [e| |g];
        try discriminate.
      intros Heq. inversion Heq as [Hg']. now apply firstGroup_truthy in Hg'.
Qed.

(** Column [name] is listed nowhere for table [t]: it is no property of
    [standardColumnTypes], no input of the signature of [t] if there is
    one, and without a signature the name [t] itself finds nothing. *)
Definition listedNowhere (own : gmap string (TypesObject (Foreign P)))
    (t name : string) : Prop :=
  standardColumnTypes !! name = None /\
  match own !! t with
  | Some (TrackedTypes types) => types !! name = None
  | Some (UntrackedTypes _) => False
  | None => Object_prototype_get P t = None
  end.

(** A column that is listed nowhere is read from the prototype chain. *)
Lemma columnType_listedNowhere
    (own : gmap string (TypesObject (Foreign P))) (t name : string) :
  listedNowhere own t name ->
  columnType P (TrackedTables P own) t name = inr (inherited P name).
Proof.
  intros [Hstd Hsig]. unfold columnType, standardType, signatureType.
  rewrite Hstd. destruct (bool_decide (t ∈ standardTables)); [reflexivity|].
  destruct (own !! t) as [[types|f]|].
  - cbn [typesGet]. rewrite Hsig. now destruct (inherited P name).
  - contradiction.
  - now rewrite Hsig.
Qed.

(** C6, the failing input.  A column that neither the standard table nor
    the signature lists does not always keep its value: when the name is
    one that objects inherit ([constructor], [toString], ...), the reads
    [standardColumnTypes[name]] and [signatureTypes[tableName]?.[name]]
    find the inherited member, the guard [!type] lets it through, and the
    cell is what [type.parse(value)] of that member gives: in every engine
    a [TypeError], since the member has no [parse]. *)
Theorem inherited_name_is_taken_for_a_schema
    (own : gmap string (TypesObject (Foreign P)))
    (name query t : string) (value : Value) (f : Foreign P) :
  resolveTableName P name query (extractTableName P query) = inr (Some t) ->
  listedNowhere own t name ->
  Object_prototype_get P name = Some f ->
  foreign_truthy P f = true ->
  decodeCell P (TrackedTables P own) (Some t) name value = foreign_parse P f value.
Proof.
  intros Hresolved Hnowhere Hinherited Htruthy.
  apply resolveTableName_truthy in Hresolved.
  unfold decodeCell. rewrite Hresolved, (columnType_listedNowhere _ _ _ Hnowhere).
  unfold inherited. rewrite Hinherited. cbn [decodeType]. now rewrite Htruthy.
Qed.


End ResultProperties.

(** C6, witness: column [constructor] of the standard table [txs], and
    column [toString] of table [transfer], whose signature has the one
    input [value]. *)
Lemma inherited_name_is_taken_for_a_schema_witness :
  decodeCell (tablePlatform "txs") (TrackedTables (tablePlatform "txs") transferTypes) (Some "txs")
    "constructor" (VString "0x1f") = inl notAFunction /\
  decodeCell (tablePlatform "transfer") (TrackedTables (tablePlatform "transfer") transferTypes)
    (Some "transfer") "toString" (VString "7") = inl notAFunction.
Proof.
  split.
  - apply (inherited_name_is_taken_for_a_schema (tablePlatform "txs")
             transferTypes "constructor" "select constructor from txs" "txs"
             (VString "0x1f") (BuiltinFunction "constructor"));
      try reflexivity.
    split; reflexivity.
  - apply (inherited_name_is_taken_for_a_schema (tablePlatform "transfer")
             transferTypes "toString" "select toString from transfer"
             "transfer" (VString "7") (BuiltinFunction "toString"));
      try reflexivity.
    split; reflexivity.
Defined.


(** *** Keys of a decoded row *)

Lemma names_setProp (k : string) (v : Value) (props : Properties) :
  names (setProp k v props) =
  if bool_decide (k ∈ names props) then names props else (names props ++ [k])%list.
Proof.
  induction props as [|[k' v'] props IH]; simpl.
  - reflexivity.
  - destruct (String.eqb_spec k' k) as [->|Hne]; simpl.
    + rewrite bool_decide_eq_true_2 by apply list_elem_of_here. reflexivity.
    + fold (names (setProp k v props)). rewrite IH. fold (names props).
      destruct (bool_decide (k ∈ names props)) eqn:Hin.
      * apply bool_decide_eq_true_1 in Hin.
        rewrite bool_decide_eq_true_2 by now apply list_elem_of_further.
        reflexivity.
      * apply bool_decide_eq_false_1 in Hin.
        rewrite bool_decide_eq_false_2; [reflexivity|].
        intros Hin'. apply elem_of_cons in Hin'. destruct Hin' as [->|Hin'];
          [now apply Hne | now apply Hin].
Qed.

(** An indexed property that exists is written in place. *)
Lemma names_setElement_old (k : string) (v : Value) (elements : Properties) :
  StronglySorted indexLe (names elements) ->
  k ∈ names elements ->
  names (setElement k v elements) = names elements.
Proof.
  induction elements as [|[k' v'] elements IH]; simpl; intros Hsorted Hin.
  - now apply elem_of_nil in Hin.
  - destruct (String.eqb_spec k' k) as [->|Hne]; [reflexivity|].
    apply elem_of_cons in Hin. destruct Hin as [->|Hin]; [contradiction|].
    apply StronglySorted_inv in Hsorted. destruct Hsorted as [Hsorted Hall].
    assert (Hle : indexLe k' k).
    { rewrite Forall_forall in Hall. now apply Hall. }
    unfold indexLe in Hle.
    destruct (indexValue k <? indexValue k') eqn:Hlt;
      [apply Z.ltb_lt in Hlt; lia|].
    simpl. fold (names (setElement k v elements)). now rewrite IH.
Qed.

(** The names after an indexed property is written. *)
Lemma names_setElement_elem (k x : string) (v : Value) (elements : Properties) :
  x ∈ names (setElement k v elements) -> x = k \/ x ∈ names elements.
Proof.
  induction elements as [|[k' v'] elements IH]; simpl.
  - rewrite elem_of_cons, elem_of_nil. tauto.
  - destruct (String.eqb_spec k' k) as [->|Hne]; simpl.
    + rewrite !elem_of_cons. tauto.
    + destruct (indexValue k <? indexValue k'); simpl.
      * rewrite !elem_of_cons. tauto.
      * fold (names (setElement k v elements)). fold (names elements).
        rewrite !elem_of_cons. intros [->|Hin]; [tauto|].
        apply IH in Hin. tauto.
Qed.

(** A new indexed property adds its name. *)
Lemma names_setElement_new (k : string) (v : Value) (elements : Properties) :
  k ∉ names elements ->
  names (setElement k v elements) ≡ₚ k :: names elements.
Proof.
  induction elements as [|[k' v'] elements IH]; simpl; intros Hnotin.
  - reflexivity.
  - destruct (String.eqb_spec k' k) as [->|Hne].
    + exfalso. apply Hnotin. apply list_elem_of_here.
    + destruct (indexValue k <? indexValue k'); simpl; [reflexivity|].
      fold (names (setElement k v elements)). fold (names elements).
      rewrite IH.
      * apply Permutation_swap.
      * intros Hin. apply Hnotin. now apply list_elem_of_further.
Qed.

(** Writing an indexed property keeps the indices in ascending order. *)
Lemma setElement_sorted (k : string) (v : Value) (elements : Properties) :
  StronglySorted indexLe (names elements) ->
  StronglySorted indexLe (names (setElement k v elements)).
Proof.
  induction elements as [|[k' v'] elements IH]; simpl; intros Hsorted.
  - repeat constructor.
  - destruct (String.eqb_spec k' k) as [->|Hne]; [exact Hsorted|].
    pose proof Hsorted as Hs.
    apply StronglySorted_inv in Hs. destruct Hs as [Hrest Hall].
    destruct (indexValue k <? indexValue k') eqn:Hlt; simpl.
    + apply Z.ltb_lt in Hlt. constructor; [exact Hsorted|].
      constructor; [unfold indexLe; lia|].
      eapply Forall_impl; [exact Hall|].
      intros x Hx. unfold indexLe in *. lia.
    + apply Z.ltb_ge in Hlt.
      fold (names (setElement k v elements)). constructor; [now apply IH|].
      rewrite Forall_forall. intros x Hx.
      apply names_setElement_elem in Hx. destruct Hx as [->|Hx].
      * exact Hlt.
      * rewrite Forall_forall in Hall. now apply Hall.
Qed.

Lemma firstOccurrences_equiv (seen seen' l : list string) :
  (forall x, x ∈ seen <-> x ∈ seen') ->
  firstOccurrences seen l = firstOccurrences seen' l.
Proof.
  revert seen seen'. induction l as [|x l IH]; intros seen seen' Heq; simpl.
  - reflexivity.
  - destruct (bool_decide (x ∈ seen)) eqn:Hin.
    + apply bool_decide_eq_true_1 in Hin.
      rewrite bool_decide_eq_true_2 by now apply Heq.
      now apply IH.
    + apply bool_decide_eq_false_1 in Hin.
      rewrite bool_decide_eq_false_2 by (intros H; now apply Hin, Heq).
      f_equal. apply IH. intros y. rewrite !elem_of_cons, Heq. reflexivity.
Qed.

(** Without repetition every name is a first occurrence. *)
Lemma firstOccurrences_NoDup (seen l : list string) :
  NoDup l -> (forall x, x ∈ l -> x ∉ seen) -> firstOccurrences seen l = l.
Proof.
  revert seen. induction l as [|x l IH]; intros seen Hnodup Hfresh; simpl.
  - reflexivity.
  - apply NoDup_cons in Hnodup. destruct Hnodup as [Hx Hl].
    rewrite bool_decide_eq_false_2 by (apply Hfresh, list_elem_of_here).
    f_equal. apply IH; [exact Hl|].
    intros y Hy Hin. apply elem_of_cons in Hin. destruct Hin as [->|Hin].
    + now apply Hx.
    + apply (Hfresh y); [now apply list_elem_of_further | exact Hin].
Qed.

(** A name other than [__proto__] is written as an own property. *)
Lemma assign_defineOwn (k : string) (v : Value) (row : Row) :
  k <> PROTO -> assign k v row = defineOwn k v row.
Proof.
  intros Hne. unfold assign.
  now destruct (String.eqb_spec k PROTO) as [->|_].
Qed.

Section RowProperties.

Variable P : Platform.
Variable signatureTypes : SignatureTypes P.
Variable query : string.
Variable sourceTableName : option string.

(** The own properties of a row after the loop over the columns, when no
    column is named [__proto__]: the named ones in the order of their first
    occurrence, the indexed ones in ascending order. *)
Lemma parseColumns_own (row_raw : list Value) (columns : list Column)
    (j : nat) (row row' : Row) :
  parseColumns P signatureTypes query sourceTableName row_raw j columns row
    = inr row' ->
  PROTO ∉ map name columns ->
  StronglySorted indexLe (names (row_elements row)) ->
  names (row_properties row') =
    (names (row_properties row) ++
     firstOccurrences (names (row_properties row))
       (List.filter notIndex (map name columns)))%list /\
  names (row_elements row') ≡ₚ
    (names (row_elements row) ++
     firstOccurrences (names (row_elements row))
       (List.filter isArrayIndex (map name columns)))%list /\
  StronglySorted indexLe (names (row_elements row')) /\
  row_prototype row' = row_prototype row.
Proof.
  revert j row. induction columns as [|column columns IH]; intros j row;
    cbn [parseColumns map].
  - intros Heq _ Hsorted. inversion Heq; subst. cbn [List.filter firstOccurrences].
    rewrite !app_nil_r. repeat split; [reflexivity | exact Hsorted].
  - destruct (resolveTableName P (name column) query sourceTableName)
      as [e|tableName]; [discriminate|].
    destruct (decodeCell P signatureTypes tableName (name column) _)
      as [e|value]; [discriminate|].
    intros Hrest Hproto Hsorted.
    assert (Hne : name column <> PROTO).
    { intros Heq. apply Hproto. rewrite Heq. apply list_elem_of_here. }
    assert (Hproto' : PROTO ∉ map name columns).
    { intros Hin. apply Hproto. now apply list_elem_of_further. }
    rewrite (assign_defineOwn _ _ _ Hne) in Hrest. unfold defineOwn in Hrest.
    cbn [List.filter]. unfold notIndex at 1.
    destruct (isArrayIndex (name column)) eqn:Hidx; cbn [negb].
    + apply IH in Hrest; [|exact Hproto'|now apply setElement_sorted].
      cbn [row_elements row_properties row_prototype] in Hrest.
      destruct Hrest as [Hprops [Hels [Hsorted' Hprototype]]].
      split; [exact Hprops|]. split; [|split; assumption].
      rewrite Hels. cbn [firstOccurrences].
      destruct (bool_decide (name column ∈ names (row_elements row))) eqn:Hin.
      * apply bool_decide_eq_true_1 in Hin.
        now rewrite (names_setElement_old _ _ _ Hsorted Hin).
      * apply bool_decide_eq_false_1 in Hin.
        pose proof (names_setElement_new (name column) value _ Hin) as Hperm.
        rewrite (firstOccurrences_equiv _ (name column :: names (row_elements row))).
        -- rewrite Hperm. cbn [app]. apply Permutation_middle.
        -- intros x. now rewrite Hperm.
    + apply IH in Hrest; [|exact Hproto'|exact Hsorted].
      cbn [row_elements row_properties row_prototype] in Hrest.
      destruct Hrest as [Hprops [Hels [Hsorted' Hprototype]]].
      split; [|split; [exact Hels|split; assumption]].
      rewrite Hprops, names_setProp. cbn [firstOccurrences].
      destruct (bool_decide (name column ∈ names (row_properties row))) eqn:Hin;
        [reflexivity|].
      rewrite <- app_assoc. f_equal. cbn [app]. f_equal.
      apply firstOccurrences_equiv. intros x.
      rewrite elem_of_app, !elem_of_cons, elem_of_nil. tauto.
Qed.

Lemma parseRows_rows (columns : list Column) (rows_raw : list (list Value))
    (rows : list Row) :
  parseRows P signatureTypes query sourceTableName columns rows_raw = inr rows ->
  Forall2
    (fun row_raw row =>
       parseRow P signatureTypes query sourceTableName columns row_raw = inr row)
    rows_raw rows.
Proof.
  revert rows. induction rows_raw as [|row_raw rest IH]; intros rows; simpl.
  - intros Heq. inversion Heq; subst. constructor.
  - destruct (parseRow P signatureTypes query sourceTableName columns row_raw)
      as [e|row] eqn:Hrow; [discriminate|].
    destruct (parseRows P signatureTypes query sourceTableName columns rest)
      as [e|rows'] eqn:Hrest; [discriminate|].
    intros Heq. inversion Heq; subst. constructor; [exact Hrow | now apply IH].
Qed.

End RowProperties.

Lemma filter_all (A : Type) (f : A -> bool) (l : list A) :
  Forall (fun x => f x = true) l -> List.filter f l = l.
Proof.
  induction 1 as [|x l Hx _ IH]; simpl; [reflexivity|]. now rewrite Hx, IH.
Qed.

Lemma filter_none (A : Type) (f : A -> bool) (l : list A) :
  Forall (fun x => f x = false) l -> List.filter f l = [].
Proof.
  induction 1 as [|x l Hx _ IH]; simpl; [reflexivity|]. now rewrite Hx, IH.
Qed.

(** C7, as the code has it: [parse] keeps the rows and their order, and
    the keys of a row are its own properties as the language enumerates
    them.  When [parse] returns, the result has as many rows as the
    payload and row [i] of the result is the decoding of row [i] of the
    payload.  When no column is named [__proto__], the keys of every row
    are the column names that are array indices, in ascending order of the
    index, followed by the other column names in the order of the columns,
    a name that occurs again keeping its first place; so without an array
    index among the names the keys follow the columns. *)
Theorem parse_preserves_rows_and_order
    (P : Platform) (raw : Raw) (query : string)
    (signatures : option (list string)) (result : Result) :
  parse P raw query signatures = inr result ->
  length (result_rows result) = length (raw_rows raw) /\
  (exists signatureTypes,
     Forall2
       (fun row_raw row =>
          parseRow P signatureTypes query (extractTableName P query)
            (raw_columns raw) row_raw = inr row)
       (raw_rows raw) (result_rows result)) /\
  (PROTO ∉ map name (raw_columns raw) ->
   Forall
     (fun row =>
        keys row =
          (names (row_elements row) ++
           firstOccurrences []
             (List.filter notIndex (map name (raw_columns raw))))%list /\
        names (row_elements row) ≡ₚ
          firstOccurrences []
            (List.filter isArrayIndex (map name (raw_columns raw))) /\
        StronglySorted indexLe (names (row_elements row)))
     (result_rows result)) /\
  (PROTO ∉ map name (raw_columns raw) ->
   Forall (fun k => isArrayIndex k = false) (map name (raw_columns raw)) ->
   Forall (keysInColumnOrder (raw_columns raw)) (result_rows result)).
Proof.
  unfold parse.
  destruct (buildSignatureTypes P (default [] signatures) (TrackedTables P ∅))
    as [e|signatureTypes]; [discriminate|].
  destruct (parseRows P signatureTypes query (extractTableName P query)
              (raw_columns raw) (raw_rows raw)) as [e|rows] eqn:Hrows;
    [discriminate|].
  intros Heq. inversion Heq; subst. simpl.
  pose proof (parseRows_rows P _ _ _ _ _ _ Hrows) as Hall.
  assert (Hkeys : PROTO ∉ map name (raw_columns raw) ->
          Forall
            (fun row =>
               keys row =
                 (names (row_elements row) ++
                  firstOccurrences []
                    (List.filter notIndex (map name (raw_columns raw))))%list /\
               names (row_elements row) ≡ₚ
                 firstOccurrences []
                   (List.filter isArrayIndex (map name (raw_columns raw))) /\
               StronglySorted indexLe (names (row_elements row)))
            rows).
  { intros Hproto. clear Hrows Heq.
    induction Hall as [|row_raw row rest rows Hrow _ IH]; [constructor|].
    constructor; [|exact IH].
    unfold parseRow in Hrow.
    apply parseColumns_own in Hrow; [|exact Hproto|constructor].
    cbn [emptyRow row_elements row_properties app] in Hrow.
    destruct Hrow as [Hprops [Hels [Hsorted _]]].
    unfold keys. rewrite Hprops. repeat split; assumption. }
  split; [symmetry; eapply Forall2_length; exact Hall|].
  split; [exists signatureTypes; exact Hall|].
  split; [exact Hkeys|].
  intros Hproto Hnames. eapply Forall_impl; [exact (Hkeys Hproto)|].
  intros row [Hrow [Hels _]]. unfold keysInColumnOrder. rewrite Hrow.
  rewrite filter_none in Hels by exact Hnames.
  apply Permutation_nil_r in Hels. rewrite Hels. cbn [app].
  rewrite filter_all; [reflexivity|].
  eapply Forall_impl; [exact Hnames|]. intros k Hk. unfold notIndex. now rewrite Hk.
Qed.

(** The rows of [exampleRaw] and of [indexedRaw] as [parse] returns them. *)
Definition exampleRows : list Row :=
  [ {| row_elements := [];
       row_properties := [("a", VString "y"); ("b", VNumber 1)];
       row_prototype := ObjectPrototype |};
    {| row_elements := [];
       row_properties := [("a", VString "w"); ("b", VNumber 2)];
       row_prototype := ObjectPrototype |} ].

Definition indexedRow : Row :=
  {| row_elements := [("1", VString "y")];
     row_properties := [("b", VString "x")];
     row_prototype := ObjectPrototype |}.

(** C7, witness: two rows under the columns [a], [b], [a]. *)
Lemma parse_preserves_rows_and_order_witness :
  parse examplePlatform exampleRaw "select a, b, a from t" None =
    inr {| result_cursor := "1-5"; result_rows := exampleRows |} /\
  length exampleRows = length (raw_rows exampleRaw) /\
  Forall (fun row => keys row = ["a"; "b"]) exampleRows.
Proof.
  assert (Hparse :
    parse examplePlatform exampleRaw "select a, b, a from t" None =
    inr {| result_cursor := "1-5"; result_rows := exampleRows |})
    by reflexivity.
  split; [exact Hparse|].
  destruct (parse_preserves_rows_and_order examplePlatform exampleRaw
              "select a, b, a from t" None _ Hparse) as [Hlen [_ [_ Hkeys]]].
  split; [exact Hlen|].
  apply Hkeys.
  - intros Hin. apply (bool_decide_eq_true_2 _) in Hin. discriminate Hin.
  - repeat constructor.
Defined.

(** C7, counterexample: under the columns [b], [1] the keys of the row are
    [1], [b]: the column named by an array index comes first. *)
Lemma index_named_column_comes_first :
  parse examplePlatform indexedRaw "select b, 1" None =
    inr {| result_cursor := "1-5"; result_rows := [indexedRow] |} /\
  keys indexedRow = ["1"; "b"] /\
  ~ keysInColumnOrder (raw_columns indexedRaw) indexedRow.
Proof.
  split; [reflexivity|]. split; [reflexivity|].
  unfold keysInColumnOrder. vm_compute. discriminate.
Qed.

(** ** Integer columns of a signature *)

Lemma isDigit_not_bracket (a : ascii) :
  JsString.isDigit a = true -> a <> "["%char.
Proof. intros Hd ->. discriminate Hd. Qed.

Lemma allDigits_no_bracket (digits : string) :
  JsString.allDigits digits = true -> JsString.indexOf "[" digits = None.
Proof.
  induction digits as [|a d IH]; [reflexivity|].
  cbn [JsString.allDigits]. intros Hd. apply andb_true_iff in Hd.
  destruct Hd as [Ha Hd]. apply isDigit_not_bracket in Ha.
  cbn [JsString.indexOf]. unfold JsString.startsWith. cbn [String.prefix].
  destruct (ascii_dec "[" a) as [<-|_]; [contradiction|].
  now rewrite (IH Hd).
Qed.

Lemma startsWith_append (p s : string) : JsString.startsWith p (p ++ s) = true.
Proof.
  unfold JsString.startsWith. induction p as [|a p IH].
  - destruct s; reflexivity.
  - rewrite JsString.append_cons. cbn [String.prefix].
    destruct (ascii_dec a a); [exact IH | contradiction].
Qed.

(** The pattern finds the digits that end a scalar integer type. *)
Lemma matchIntSize_int (digits : string) :
  JsString.allDigits digits = true ->
  matchIntSize ("int" ++ digits) =
  if JsString.truthy digits then Some digits else None.
Proof.
  intros Hd. destruct digits as [|a d]; [reflexivity|].
  change ("int" ++ String a d) with (String "i" (String "n" (String "t" (String a d)))).
  cbn [matchIntSize]. unfold JsString.startsWith.
  change (String.prefix "int" (String "i" (String "n" (String "t" (String a d)))))
    with true.
  cbn [JsString.drop JsString.truthy andb]. now rewrite Hd.
Qed.

Lemma matchIntSize_uint (digits : string) :
  matchIntSize ("uint" ++ digits) = matchIntSize ("int" ++ digits).
Proof. reflexivity. Qed.

(** On a scalar type [int<digits>] or [uint<digits>] the code follows the
    rule of the specification: a number up to 48 bits, a big integer above
    and when no width is written. *)
Lemma transform_scalar_int (digits : string) :
  JsString.allDigits digits = true ->
  transform ("int" ++ digits) = intRule_spec ("int" ++ digits) /\
  transform ("uint" ++ digits) = intRule_spec ("uint" ++ digits).
Proof.
  intros Hd. pose proof (allDigits_no_bracket digits Hd) as Hb.
  assert (Hinc : JsString.includes "[" ("int" ++ digits) = false
                 /\ JsString.includes "[" ("uint" ++ digits) = false).
  { unfold JsString.includes.
    change ("uint" ++ digits) with (String "u" ("int" ++ digits)).
    change ("int" ++ digits) with (String "i" (String "n" (String "t" digits))).
    cbn [JsString.indexOf]. unfold JsString.startsWith. cbn [String.prefix].
    repeat match goal with
           | |- context [ascii_dec ?x ?y] =>
               let r := eval vm_compute in (if ascii_dec x y then true else false) in
               match r with
               | false => destruct (ascii_dec x y) as [Heq|_]; [discriminate Heq|]
               end
           end.
    rewrite Hb. split; reflexivity. }
  destruct Hinc as [Hinc1 Hinc2].
  assert (Hw : declaredWidth ("int" ++ digits) =
               (if JsString.truthy digits then JsString.digitsValue 0 digits else 256)
               /\ declaredWidth ("uint" ++ digits) =
               (if JsString.truthy digits then JsString.digitsValue 0 digits else 256)).
  { unfold declaredWidth.
    change (JsString.startsWith "uint" ("int" ++ digits)) with false.
    rewrite (startsWith_append "uint" digits).
    change (JsString.drop 3 ("int" ++ digits)) with digits.
    change (JsString.drop 4 ("uint" ++ digits)) with digits.
    rewrite Hb. split; reflexivity. }
  destruct Hw as [Hw1 Hw2].
  unfold intRule_spec. rewrite Hinc1, Hinc2, Hw1, Hw2.
  unfold transform. rewrite Hinc1, Hinc2, matchIntSize_uint, (matchIntSize_int _ Hd).
  change (String.eqb ("int" ++ digits) "address") with false.
  change (String.eqb ("uint" ++ digits) "address") with false.
  change (String.eqb ("int" ++ digits) "bool") with false.
  change (String.eqb ("uint" ++ digits) "bool") with false.
  change (JsString.startsWith "bytes" ("int" ++ digits)) with false.
  change (JsString.startsWith "bytes" ("uint" ++ digits)) with false.
  rewrite (startsWith_append "int" digits), (startsWith_append "uint" digits).
  cbn [orb]. rewrite orb_true_r.
  destruct (JsString.truthy digits) eqn:Ht; rewrite ?Ht; cbn [andb];
    split; reflexivity.
Qed.

Lemma prefix_split (p s : string) :
  String.prefix p s = true -> exists r, s = p ++ r.
Proof.
  revert s. induction p as [|a p IH]; intros s.
  - intros _. now exists s.
  - destruct s as [|b s]; cbn [String.prefix]; [discriminate|].
    destruct (ascii_dec a b) as [<-|]; [|discriminate].
    intros H. destruct (IH s H) as [r ->]. now exists r.
Qed.

Lemma lastChar_digits (digits : string) :
  JsString.truthy digits = true -> JsString.allDigits digits = true ->
  exists a, JsString.lastChar digits = Some a /\ JsString.isDigit a = true.
Proof.
  induction digits as [|a d IH]; [discriminate|].
  intros _ Hd. cbn [JsString.allDigits] in Hd. apply andb_true_iff in Hd.
  destruct Hd as [Ha Hd]. destruct d as [|b d].
  - exists a. split; [reflexivity | exact Ha].
  - destruct (IH eq_refl Hd) as [x [Hx Hdx]]. exists x. split; [exact Hx | exact Hdx].
Qed.

(** A match of the pattern ends the string, so the string ends in a
    digit. *)
Lemma matchIntSize_lastChar (type digits : string) :
  matchIntSize type = Some digits ->
  exists a, JsString.lastChar type = Some a /\ JsString.isDigit a = true.
Proof.
  induction type as [|c type IH]; [discriminate|].
  cbn [matchIntSize].
  destruct (JsString.startsWith "int" (String c type)) eqn:Hp.
  - destruct (JsString.truthy (JsString.drop 3 (String c type))
              && JsString.allDigits (JsString.drop 3 (String c type))) eqn:Hd.
    + intros _. apply andb_true_iff in Hd. destruct Hd as [Ht Hd].
      destruct (prefix_split _ _ Hp) as [r Hr]. rewrite Hr in *.
      change (JsString.drop 3 ("int" ++ r)) with r in *.
      destruct (lastChar_digits r Ht Hd) as [a [Ha Hda]].
      exists a. split; [|exact Hda].
      destruct r as [|b r]; [discriminate Ht|]. exact Ha.
    + intros H. destruct (IH H) as [a [Ha Hda]]. exists a. split; [|exact Hda].
      destruct type; [discriminate Ha | exact Ha].
  - intros H. destruct (IH H) as [a [Ha Hda]]. exists a. split; [|exact Hda].
    destruct type; [discriminate Ha | exact Ha].
Qed.

(** On an array type the pattern never matches, because the type ends in a
    bracket: the elements of every integer array are big integers,
    whatever width is declared. *)
Lemma transform_array_int (type : string) :
  JsString.startsWith "int" type || JsString.startsWith "uint" type = true ->
  JsString.includes "[" type = true ->
  JsString.lastChar type = Some "]"%char ->
  transform type = z_array (z_transform ToBigInt).
Proof.
  intros Hint Hinc Hlast.
  assert (Hsize : matchIntSize type = None).
  { destruct (matchIntSize type) as [d|] eqn:Hm; [|reflexivity].
    destruct (matchIntSize_lastChar _ _ Hm) as [a [Ha Hda]].
    rewrite Hlast in Ha. inversion Ha; subst. discriminate Hda. }
  unfold transform. rewrite Hint, Hinc, Hsize.
  apply orb_true_iff in Hint. unfold JsString.startsWith in *.
  destruct Hint as [Hp|Hp]; destruct (prefix_split _ _ Hp) as [r ->]; reflexivity.
Qed.

(** C5, the failing input: for the array type [uint8[]] the code builds an
    array of big integers, while the rule of the specification (and of the
    scalar path) gives an array of numbers for a width of 8 bits. *)
Theorem transform_uint8_array :
  transform "uint8[]" = z_array (z_transform ToBigInt) /\
  intRule_spec "uint8[]" = z_array (z_transform ToNumber) /\
  transform "uint8" = z_transform ToNumber.
Proof. repeat split. Qed.

(** * Further properties of the code *)

(** ** Definitions used below *)

Definition isRequest (ev : Event) : bool :=
  match ev with EmitRequest _ => true | _ => false end.



(** The number of events of a kind in a trace. *)
Definition countEvents (kind : Event -> bool) (evs : list Event) : nat :=
  length (List.filter kind evs).

(** An attempt of [fetch] that ends in an error the policy retries. *)
Definition failsRetryably (P : Platform) (c : CreateOptions) (options : Options)
    (f : Fetched) : Prop :=
  match snd (tryFetch P c options f) with
  | Throw e => shouldRetry e = true
  | _ => False
  end.

(** A connection of [live] that is handled without cancellation, makes
    progress (leaves the counter at 0) and then fails with an error the
    policy retries. *)
Definition progressesThenFails (P : Platform) (c : CreateOptions)
    (options : Options) (a : Attempt) : Prop :=
  (opt_signal options && (aborted a || abortedInSleep a)) = false /\
  forall count,
    snd (fst (tryLive P c options (fetched a) count)) = 0 /\
    match snd (tryLive P c options (fetched a) count) with
    | Throw e => shouldRetry e = true
    | _ => False
    end.


(** The options with another retry count. *)
Definition withRetryCount (retryCount : Z) (options : Options) : Options :=
  {| opt_cursor := opt_cursor options;
     opt_signatures := opt_signatures options;
     opt_query := opt_query options;
     opt_retryCount := Some retryCount;
     opt_signal := opt_signal options |}.

(** The values of the parameters named [k], in order
    ([params.getAll(k)]). *)
Definition params_getAll (k : string) (params : SearchParams) : list string :=
  map snd (List.filter (fun kv => String.eqb (fst kv) k) params).

(** ** The backoff schedule *)




(** ** The retry loop of [fetch] *)

Section FetchProperties.

Variable P : Platform.
Variable c : CreateOptions.
Variable options : Options.

Lemma countEvents_app (kind : Event -> bool) (l1 l2 : list Event) :
  countEvents kind (l1 ++ l2) = (countEvents kind l1 + countEvents kind l2)%nat.
Proof. unfold countEvents. now rewrite List.filter_app, length_app. Qed.



(** X4: when every allowed attempt fails with a retryable error, [fetch]
    throws the error of the last attempt, never reads the rest of the
    script, and has slept after that last failure too: the trace ends with
    the sleep of [backoff retryCount]. *)
Theorem fetch_gives_up_with_last_error
    (pre : list Fetched) (f : Fetched) (rest : list Fetched)
    (count : Z) (lastError : option Error) :
  Forall (failsRetryably P c options) pre ->
  failsRetryably P c options f ->
  count + Z.of_nat (length pre) + 1 = fetchRetryCount options ->
  snd (fetchLoop P c options (pre ++ f :: rest) count lastError)
    = snd (tryFetch P c options f) /\
  last (fst (fetchLoop P c options (pre ++ f :: rest) count lastError))
    = Some (Sleep (backoff (fetchRetryCount options))).
Proof.
  revert count lastError.
  induction pre as [|g pre IH]; intros count lastError Hpre Hf Hcount;
    cbn [app fetchLoop].
  - simpl in Hcount. unfold failsRetryably in Hf.
    destruct (count <? fetchRetryCount options) eqn:Hlt;
      [|apply Z.ltb_ge in Hlt; lia].
    destruct (tryFetch P c options f) as [evs [r|e|]]; simpl in Hf;
      try contradiction.
    rewrite Hf. cbn [negb].
    assert (Hend : forall l last',
               fetchLoop P c options l (count + 1) last' =
               ([], Throw (default (BaseError "Maximum retry attempts reached")
                             last'))).
    { intros l last'.
      destruct l; simpl;
        (destruct (count + 1 <? fetchRetryCount options) eqn:Hlt';
         [apply Z.ltb_lt in Hlt'; lia | reflexivity]). }
    rewrite Hend. simpl. split; [reflexivity|].
    rewrite last_app. simpl. f_equal. f_equal. f_equal. lia.
  - apply Forall_cons in Hpre. destruct Hpre as [Hg Hpre].
    simpl in Hcount. unfold failsRetryably in Hg.
    destruct (count <? fetchRetryCount options) eqn:Hlt;
      [|apply Z.ltb_ge in Hlt; lia].
    destruct (tryFetch P c options g) as [evs [r|e|]]; simpl in Hg;
      try contradiction.
    rewrite Hg. cbn [negb].
    specialize (IH (count + 1) (Some e) Hpre Hf ltac:(lia)).
    destruct (fetchLoop P c options (pre ++ f :: rest) (count + 1) (Some e))
      as [evs' done].
    simpl in *. destruct IH as [IH1 IH2]. split; [exact IH1|].
    rewrite last_app. simpl.
    destruct evs' as [|ev evs']; [discriminate IH2|].
    simpl in *. rewrite IH2. reflexivity.
Qed.

(** X5: what [fetch] returns is the [parse] of the first payload of a
    response that is [ok], and that response answers the first attempt
    that does not end in an error [shouldRetry] accepts: every attempt
    before it ended in such an error, there were fewer of them than the
    retry count allows, and the cursor returned is the cursor of that
    payload. *)
Theorem fetch_returns_first_success
    (script : list Fetched) (count : Z) (lastError : option Error)
    (r : Result) :
  snd (fetchLoop P c options script count lastError) = Return r ->
  exists pre response result others post,
    script = (pre ++ Resolved response :: post)%list /\
    Forall (failsRetryably P c options) pre /\
    count + Z.of_nat (length pre) < fetchRetryCount options /\
    ok response = true /\
    json response = inr (result :: others) /\
    parse P result (opt_query options) (opt_signatures options) = inr r /\
    result_cursor r = raw_cursor result.
Proof.
  revert count lastError.
  induction script as [|f rest IH]; intros count lastError; simpl.
  - destruct (count <? fetchRetryCount options); discriminate.
  - destruct (count <? fetchRetryCount options) eqn:Hlt; [|discriminate].
    apply Z.ltb_lt in Hlt.
    destruct (tryFetch P c options f) as [evs [r0|e|]] eqn:Htry; simpl.
    + intros Heq. inversion Heq; subst r0. clear Heq.
      unfold tryFetch in Htry. destruct f as [e|response]; [discriminate|].
      destruct (negb (ok response)) eqn:Hok; [discriminate|].
      destruct (json response) as [e|[|result others]] eqn:Hjson;
        try discriminate.
      destruct (parse P result (opt_query options) (opt_signatures options))
        as [e|r0] eqn:Hparse; [discriminate|].
      inversion Htry; subst. exists [], response, result, others, rest.
      repeat split; try assumption.
      * constructor.
      * simpl. lia.
      * now apply negb_false_iff in Hok.
      * unfold parse in Hparse.
        destruct (buildSignatureTypes P _ _); [discriminate|].
        destruct (parseRows P _ _ _ _ _); [discriminate|].
        inversion Hparse. reflexivity.
    + destruct (negb (shouldRetry e)) eqn:Hretry; [discriminate|].
      specialize (IH (count + 1) (Some e)).
      destruct (fetchLoop P c options rest (count + 1) (Some e)) as [evs' done].
      simpl in *. intros Hdone.
      destruct (IH Hdone)
        as [pre [response [result [others [post [Hs [Hpre [Hn H]]]]]]]].
      exists (f :: pre), response, result, others, post.
      split; [now rewrite Hs|]. split.
      * constructor; [|exact Hpre]. unfold failsRetryably. rewrite Htry. simpl.
        now apply negb_false_iff in Hretry.
      * split; [simpl length; lia | exact H].
    + discriminate.
Qed.

End FetchProperties.

(** X3: with a retry count of zero or less neither [fetch] nor [live] sends
    a request or emits an event.  [live] throws [Maximum retry attempts
    reached] at once; so does [fetch], unless its base URL is not absolute:
    then it throws the error of [new URL], which it builds before its
    loop. *)
Theorem no_attempt_without_retries
    (P : Platform) (c : CreateOptions) (options : Options) (retryCount : Z)
    (fetches : list Fetched) (connections : list Attempt) :
  retryCount <= 0 ->
  fetch P c (withRetryCount retryCount options) fetches =
    ([], Throw (default (BaseError "Maximum retry attempts reached")
                  (URL_error P (baseUrlOf c ++ "/query")))) /\
  live P c (withRetryCount retryCount options) connections =
    ([], Throw (BaseError "Maximum retry attempts reached")).
Proof.
  intros Hle. unfold fetch, live.
  assert (Hf : (0 <? fetchRetryCount (withRetryCount retryCount options)) = false)
    by (apply Z.ltb_ge; exact Hle).
  assert (Hl : (0 <? liveRetryCount (withRetryCount retryCount options)) = false)
    by (apply Z.ltb_ge; exact Hle).
  split.
  - destruct (URL_error P (baseUrlOf c ++ "/query")) as [e|]; [reflexivity|].
    destruct fetches; simpl; rewrite Hf; reflexivity.
  - destruct connections; simpl; rewrite Hl; reflexivity.
Qed.

(** A client whose base URL is relative. *)
Definition relativeClient : CreateOptions :=
  {| apiKey := None; baseUrl := Some "/v2" |}.

(** X3, witness: a retry count of 0, with the default base URL and with a
    relative one. *)
Lemma no_attempt_without_retries_witness :
  fetch examplePlatform exampleClient (withRetryCount 0 (exampleOptions None))
    [failing 500] =
    ([], Throw (BaseError "Maximum retry attempts reached")) /\
  fetch examplePlatform relativeClient (withRetryCount 0 (exampleOptions None))
    [failing 500] =
    ([], Throw (TypeError "Invalid URL")) /\
  live examplePlatform relativeClient (withRetryCount 0 (exampleOptions None))
    [quiet (streaming [Done])] =
    ([], Throw (BaseError "Maximum retry attempts reached")).
Proof.
  destruct (no_attempt_without_retries examplePlatform exampleClient
              (exampleOptions None) 0 [failing 500] [quiet (streaming [Done])]
              ltac:(lia)) as [Hfetch _].
  destruct (no_attempt_without_retries examplePlatform relativeClient
              (exampleOptions None) 0 [failing 500] [quiet (streaming [Done])]
              ltac:(lia)) as [Hrelative Hlive].
  split; [exact Hfetch|]. split; [exact Hrelative | exact Hlive].
Defined.

(** X4, witness: two attempts allowed, answered by 500 and 503; a third
    answer that would succeed is never asked for. *)
Lemma fetch_gives_up_with_last_error_witness :
  snd (fetchLoop examplePlatform exampleClient (exampleOptions (Some 2))
         ([failing 500] ++ failing 503 :: [failing 200]) 0 None)
    = Throw (FetchRequestError (VString "oops") 503) /\
  last (fst (fetchLoop examplePlatform exampleClient (exampleOptions (Some 2))
               ([failing 500] ++ failing 503 :: [failing 200]) 0 None))
    = Some (Sleep 400).
Proof.
  apply (fetch_gives_up_with_last_error examplePlatform exampleClient
           (exampleOptions (Some 2)) [failing 500] (failing 503) [failing 200]
           0 None).
  - constructor; [exact eq_refl | constructor].
  - exact eq_refl.
  - reflexivity.
Defined.

(** X5, witness: a refused attempt, then a response with one payload. *)
Lemma fetch_returns_first_success_witness :
  exists pre response result others post,
    [failing 500;
     Resolved {| status := 200; text := ""; json := inr [exampleRaw];
                 stream := None |}]
      = (pre ++ Resolved response :: post)%list /\
    Forall (failsRetryably examplePlatform exampleClient (exampleOptions None)) pre /\
    0 + Z.of_nat (length pre) < fetchRetryCount (exampleOptions None) /\
    ok response = true /\
    json response = inr (result :: others) /\
    parse examplePlatform result (opt_query (exampleOptions None))
      (opt_signatures (exampleOptions None))
      = inr {| result_cursor := "1-5"; result_rows := exampleRows |} /\
    result_cursor {| result_cursor := "1-5"; result_rows := exampleRows |}
      = raw_cursor result.
Proof.
  apply (fetch_returns_first_success examplePlatform exampleClient
           (exampleOptions None)
           [failing 500;
            Resolved {| status := 200; text := ""; json := inr [exampleRaw];
                        stream := None |}] 0 None).
  reflexivity.
Defined.

(** ** The parameters of a [live] request *)











(** ** Reading a stream that goes on *)

Section StreamDelivery.

Variable P : Platform.

Lemma readLoop_more (reads more : list ReadResult)
    (st : DecoderState P) (buffer : string) :
  exists ys e,
    readLoop P st buffer (reads ++ more) =
      ((fst (readLoop P st buffer reads) ++ ys)%list, e) /\
    (snd (readLoop P st buffer reads) <> Pending ->
     ys = [] /\ e = snd (readLoop P st buffer reads)).
Proof.
  revert st buffer. induction reads as [|r reads IH]; intros st buffer.
  - destruct (readLoop P st buffer more) as [ys e] eqn:Hmore.
    exists ys, e. cbn [app]. rewrite Hmore. split; [reflexivity|].
    intros H. now contradiction H.
  - destruct r as [value| |err]; cbn [app readLoop].
    + destruct (decode P st value) as [st' decoded].
      destruct (flush P (buffer ++ decoded)) as [ys0 [e0|buffer']].
      * exists [], (Threw e0). simpl. rewrite app_nil_r. now split.
      * destruct (IH st' buffer') as [ys [e [Heq Hend]]]. rewrite Heq.
        destruct (readLoop P st' buffer' reads) as [ys1 e1]. simpl in *.
        exists ys, e. rewrite app_assoc. split; [reflexivity | exact Hend].
    + exists [], Ended. now split.
    + exists [], (Threw err). now split.
Qed.

(** X8: what the decoder has yielded stays yielded.  When more reads
    follow, the payloads of the longer stream start with the payloads of
    the shorter one; and once the stream has ended or thrown, nothing that
    follows is read. *)
Theorem readStream_delivery_is_stable (reads more : list ReadResult) :
  exists ys e,
    readStream P (reads ++ more) = ((fst (readStream P reads) ++ ys)%list, e) /\
    (snd (readStream P reads) <> Pending ->
     ys = [] /\ e = snd (readStream P reads)).
Proof. unfold readStream. apply readLoop_more. Qed.

End StreamDelivery.

(** ** Reconnections of [live] *)

Section LiveReconnects.

Variable P : Platform.
Variable c : CreateOptions.
Variable options : Options.

(** A connection that leaves the counter changed has emitted one
    request. *)
Lemma tryLive_one_request (f : Fetched) (count : Z) :
  snd (fst (tryLive P c options f count)) <> count ->
  countEvents isRequest (fst (fst (tryLive P c options f count))) = 1%nat.
Proof.
  unfold tryLive.
  destruct (URL_error P (baseUrlOf c ++ "/query-live")) as [invalid|];
    [intros Hne; now contradiction Hne|].
  intros _. destruct f as [e|response]; [reflexivity|].
  destruct (negb (ok response)); [reflexivity|].
  destruct (stream response) as [reads|]; [|reflexivity].
  destruct (readStream P reads) as [payloads e].
  pose proof (consume_yields count payloads) as Hy.
  destruct (consume count payloads) as [[evs count'] thrown]. simpl in *.
  unfold countEvents. simpl. f_equal.
  induction Hy as [|ev evs Hev _ IH]; [reflexivity|].
  destruct ev; simpl in *; try discriminate. exact IH.
Qed.

(** One turn of the retry loop. *)
Lemma liveLoop_cons (a : Attempt) (rest : list Attempt) (count : Z)
    (lastError : option Error) (shouldAbort : bool) :
  liveLoop P c options (a :: rest) count lastError shouldAbort =
  if count <? liveRetryCount options then
    let '(evs, count', done) := tryLive P c options (fetched a) (count + 1) in
    match done with
    | Return _ => (evs, Return tt)
    | Waiting => (evs, Waiting)
    | Throw e =>
        if shouldAbort || (opt_signal options && aborted a) then (evs, Return tt)
        else if negb (shouldRetry e) then ((evs ++ [EmitError e])%list, Throw e)
        else
          let (evs', done') :=
            liveLoop P c options rest count' (Some e)
              (shouldAbort || (opt_signal options && aborted a)
               || (opt_signal options && abortedInSleep a)) in
          ((evs ++ [EmitError e; Sleep (backoff count')] ++ evs')%list, done')
    end
  else
    ([], Throw (default (BaseError "Maximum retry attempts reached") lastError)).
Proof. reflexivity. Qed.

(** X9: the retry count of [live] limits failures in a row, not
    reconnections.  A run of connections that each make progress before
    failing with a retryable error is followed one by one, however long it
    is and whatever the retry count (if positive): one request per
    connection, and the loop goes on with the counter back at 0. *)
Theorem live_progress_renews_retries
    (a : Attempt) (run rest : list Attempt) (count : Z)
    (lastError : option Error) :
  Forall (progressesThenFails P c options) (a :: run) ->
  0 <= count < liveRetryCount options ->
  exists evs e,
    liveLoop P c options ((a :: run) ++ rest) count lastError false =
      ((evs ++ fst (liveLoop P c options rest 0 (Some e) false))%list,
       snd (liveLoop P c options rest 0 (Some e) false)) /\
    countEvents isRequest evs = S (length run).
Proof.
  revert a count lastError.
  induction run as [|b run IH]; intros a count lastError Hall Hcount;
    apply Forall_cons in Hall; destruct Hall as [[Hquiet Ha] Hrun];
    apply andb_false_iff in Hquiet; cbn [app]; rewrite liveLoop_cons;
    (destruct (count <? liveRetryCount options) eqn:Hlt;
       [|apply Z.ltb_ge in Hlt; lia]);
    destruct (Ha (count + 1)) as [Hzero Hthrow];
    pose proof (tryLive_one_request (fetched a) (count + 1)) as Hreq;
    destruct (tryLive P c options (fetched a) (count + 1))
      as [[evs count'] [u|e|]]; simpl in Hzero, Hthrow, Hreq;
    try contradiction; subst count'; specialize (Hreq ltac:(lia));
    assert (Hsa : (opt_signal options && aborted a) = false
                  /\ (opt_signal options && abortedInSleep a) = false)
      by (destruct (opt_signal options), (aborted a), (abortedInSleep a);
          destruct Hquiet; split; try reflexivity; discriminate);
    destruct Hsa as [Hsa1 Hsa2]; rewrite Hsa1, Hthrow, Hsa2; cbn [orb negb].
  - exists (evs ++ [EmitError e; Sleep (backoff 0)])%list, e.
    destruct (liveLoop P c options rest 0 (Some e) false) as [evs' done].
    cbn [fst snd]. split; [now rewrite <- app_assoc|].
    rewrite countEvents_app, Hreq. reflexivity.
  - destruct (IH b 0 (Some e) Hrun ltac:(lia)) as [evs1 [e1 [Heq Hcnt]]].
    cbn [app] in Heq. rewrite Heq.
    exists (evs ++ [EmitError e; Sleep (backoff 0)] ++ evs1)%list, e1.
    cbn [fst snd]. split.
    + f_equal. now rewrite <- !app_assoc.
    + rewrite !countEvents_app, Hreq, Hcnt. reflexivity.
Qed.

End LiveReconnects.

(** X9, witness: with one attempt allowed, three connections that yield a
    batch and then report a server error are all followed, and so is the
    fourth. *)
Lemma live_progress_renews_retries_witness :
  exists evs e,
    liveLoop examplePlatform exampleClient (exampleOptions (Some 1))
      ((batchThenServerError :: [batchThenServerError; batchThenServerError])
         ++ [quiet (streaming [Done])]) 0 None false =
      ((evs ++ fst (liveLoop examplePlatform exampleClient
                      (exampleOptions (Some 1)) [quiet (streaming [Done])]
                      0 (Some e) false))%list,
       snd (liveLoop examplePlatform exampleClient (exampleOptions (Some 1))
              [quiet (streaming [Done])] 0 (Some e) false)) /\
    countEvents isRequest evs = 3%nat.
Proof.
  assert (Hone : progressesThenFails examplePlatform exampleClient
                   (exampleOptions (Some 1)) batchThenServerError).
  { split; [reflexivity|]. intros count. split; reflexivity. }
  apply (live_progress_renews_retries examplePlatform exampleClient
           (exampleOptions (Some 1)) batchThenServerError
           [batchThenServerError; batchThenServerError]
           [quiet (streaming [Done])] 0 None).
  - repeat constructor; exact Hone.
  - split; [lia | reflexivity].
Defined.

(** ** Frames as a server writes them *)

(** A text without line feed. *)
Fixpoint noLF (s : string) : bool :=
  match s with
  | EmptyString => true
  | String a s' => negb (Ascii.eqb a JsString.LF) && noLF s'
  end.

(** Lines joined by single line feeds. *)
Fixpoint joinLines (lines : list string) : string :=
  match lines with
  | [] => ""
  | [l] => l
  | l :: rest => l ++ String JsString.LF (joinLines rest)
  end.

(** A frame: its lines, then the blank line that ends it. *)
Definition frameOf (lines : list string) : string :=
  joinLines lines ++ JsString.LFLF.

(** The [data:] line that carries a JSON text. *)
Definition dataLine (json : string) : string := "data:" ++ json.

(** A stream of frames, each frame a list of JSON texts paired with the
    values they denote. *)
Definition encodeStream (frames : list (list (string * Value))) : string :=
  fold_right (fun frame rest => frameOf (map (fun tv => dataLine (fst tv)) frame) ++ rest)
    "" frames.

(** A line a frame can hold: not empty, no line feed. *)
Definition isLine (l : string) : Prop := noLF l = true /\ l <> "".

Lemma indexOf_LFLF_skip (l tail : string) :
  noLF l = true ->
  JsString.indexOf JsString.LFLF (l ++ tail) =
  (fun i => (String.length l + i)%nat) <$> JsString.indexOf JsString.LFLF tail.
Proof.
  induction l as [|a l IH]; intros Hl.
  - rewrite JsString.append_nil_l.
    now destruct (JsString.indexOf JsString.LFLF tail).
  - cbn [noLF] in Hl. apply andb_true_iff in Hl. destruct Hl as [Ha Hl].
    apply negb_true_iff in Ha.
    rewrite JsString.append_cons, indexOf_LFLF_cons, Ha. cbn [andb].
    rewrite (IH Hl).
    now destruct (JsString.indexOf JsString.LFLF tail).
Qed.

Lemma joinLines_cons (l : string) (rest : list string) :
  rest <> [] ->
  joinLines (l :: rest) = l ++ String JsString.LF (joinLines rest).
Proof. destruct rest; [contradiction | reflexivity]. Qed.

(** A joined text of lines does not start with a line feed. *)
Lemma joinLines_head (l : string) (rest : list string) (tail : string) :
  isLine l ->
  JsString.startsWith (String JsString.LF "") (joinLines (l :: rest) ++ tail)
    = false.
Proof.
  intros [Hl Hne]. destruct l as [|a l]; [contradiction|].
  cbn [noLF] in Hl. apply andb_true_iff in Hl. destruct Hl as [Ha _].
  apply negb_true_iff in Ha.
  assert (Hshape : exists s, joinLines (String a l :: rest) ++ tail = String a s).
  { destruct rest; cbn [joinLines]; rewrite JsString.append_cons; eauto. }
  destruct Hshape as [s ->].
  unfold JsString.startsWith. cbn [String.prefix].
  destruct (ascii_dec JsString.LF a) as [<-|_]; [|reflexivity].
  rewrite Ascii.eqb_refl in Ha. discriminate.
Qed.

(** The blank line that ends a frame is the first one in the buffer. *)
Lemma indexOf_frame_end (lines : list string) (rest : string) :
  Forall isLine lines ->
  JsString.indexOf JsString.LFLF (frameOf lines ++ rest) =
  Some (String.length (joinLines lines)).
Proof.
  unfold frameOf. rewrite JsString.append_assoc.
  assert (Hend : JsString.indexOf JsString.LFLF (JsString.LFLF ++ rest) = Some O).
  { unfold JsString.LFLF. rewrite !JsString.append_cons, JsString.append_nil_l.
    rewrite indexOf_LFLF_cons, Ascii.eqb_refl. cbn [andb].
    unfold JsString.startsWith. cbn [String.prefix].
    destruct (ascii_dec JsString.LF JsString.LF); [|contradiction].
    now destruct rest. }
  induction lines as [|l lines IH]; intros Hall.
  - exact Hend.
  - apply Forall_cons in Hall. destruct Hall as [Hl Hall].
    destruct lines as [|l2 lines].
    + cbn [joinLines]. rewrite indexOf_LFLF_skip by apply Hl.
      rewrite Hend. simpl. f_equal. lia.
    + rewrite joinLines_cons by discriminate.
      rewrite JsString.append_assoc, indexOf_LFLF_skip by apply Hl.
      rewrite JsString.append_cons, indexOf_LFLF_cons, Ascii.eqb_refl.
      cbn [andb].
      apply Forall_cons in Hall as Hall'. destruct Hall' as [Hl2 _].
      rewrite (joinLines_head l2 lines _ Hl2), (IH Hall).
      simpl. f_equal. rewrite JsString.length_append. simpl. lia.
Qed.

Lemma take_length_append (s t : string) :
  JsString.take (String.length s) (s ++ t) = s.
Proof.
  induction s as [|a s IH]; [now destruct t|].
  rewrite JsString.append_cons. simpl. now rewrite IH.
Qed.

Lemma drop_length_append (s t : string) :
  JsString.drop (String.length s) (s ++ t) = t.
Proof.
  induction s as [|a s IH]; [reflexivity|].
  rewrite JsString.append_cons. simpl. exact IH.
Qed.

Lemma drop_add (n m : nat) (s : string) :
  JsString.drop (n + m) s = JsString.drop m (JsString.drop n s).
Proof.
  revert s. induction n as [|n IH]; intros s; [reflexivity|].
  destruct s as [|a s]; [now destruct m | apply IH].
Qed.

Lemma split_line (l : string) :
  noLF l = true -> JsString.split JsString.LF l = [l].
Proof.
  induction l as [|a l IH]; [reflexivity|].
  cbn [noLF]. intros Hl. apply andb_true_iff in Hl. destruct Hl as [Ha Hl].
  apply negb_true_iff in Ha. cbn [JsString.split]. rewrite Ha, (IH Hl).
  reflexivity.
Qed.

Lemma split_line_more (l s : string) :
  noLF l = true ->
  JsString.split JsString.LF (l ++ String JsString.LF s) =
  l :: JsString.split JsString.LF s.
Proof.
  induction l as [|a l IH]; intros Hl.
  - rewrite JsString.append_nil_l. cbn [JsString.split].
    now rewrite Ascii.eqb_refl.
  - cbn [noLF] in Hl. apply andb_true_iff in Hl. destruct Hl as [Ha Hl].
    apply negb_true_iff in Ha. rewrite JsString.append_cons.
    cbn [JsString.split]. rewrite Ha, (IH Hl). reflexivity.
Qed.

(** Splitting gives back the lines that were joined. *)
Lemma split_joinLines (l : string) (lines : list string) :
  Forall isLine (l :: lines) ->
  JsString.split JsString.LF (joinLines (l :: lines)) = l :: lines.
Proof.
  revert l. induction lines as [|l2 lines IH]; intros l Hall;
    apply Forall_cons in Hall; destruct Hall as [[Hl _] Hall].
  - now apply split_line.
  - rewrite joinLines_cons by discriminate.
    rewrite split_line_more by exact Hl. now rewrite IH.
Qed.

Section Frames.

Variable P : Platform.

(** One frame at the head of the buffer: its lines are handled, then the
    loop goes on with what follows the frame. *)
Lemma flush_frame (lines : list string) (rest : string) :
  Forall isLine lines ->
  flush P (frameOf lines ++ rest) =
  match dataLines P lines with
  | (ys, Some e) => (ys, inl e)
  | (ys, None) => ((ys ++ fst (flush P rest))%list, snd (flush P rest))
  end.
Proof.
  intros Hall.
  rewrite (flush_some P _ _ (indexOf_frame_end lines rest Hall)).
  unfold frameOf. rewrite JsString.append_assoc, take_length_append.
  rewrite drop_add, drop_length_append.
  change (JsString.drop 2 (JsString.LFLF ++ rest)) with rest.
  destruct lines as [|l lines].
  - cbn [joinLines JsString.split dataLines JsString.startsWith String.prefix].
    reflexivity.
  - rewrite (split_joinLines l lines Hall). reflexivity.
Qed.

End Frames.

Section FrameProperties.

Variable P : Platform.

Lemma dataLines_ignored (lines : list string) :
  Forall (fun l => JsString.startsWith "data:" l = false) lines ->
  dataLines P lines = ([], None).
Proof.
  induction 1 as [|l lines Hl _ IH]; [reflexivity|].
  cbn [dataLines]. now rewrite Hl.
Qed.

(** X10: a frame without a [data:] line (a comment, an [event:] or [id:]
    field, a keep-alive) yields nothing and raises nothing: the stream
    whose text holds such a frame first reads as the stream without it. *)
Theorem frame_without_data_is_skipped
    (lines : list string) (text : string) (value value' : list Byte.byte)
    (st : DecoderState P) (reads : list ReadResult) :
  Forall isLine lines ->
  Forall (fun l => JsString.startsWith "data:" l = false) lines ->
  decode P (decoder_new P) value = (st, frameOf lines ++ text) ->
  decode P (decoder_new P) value' = (st, text) ->
  readStream P (Chunk value :: reads) = readStream P (Chunk value' :: reads).
Proof.
  intros Hlines Hnodata Hvalue Hvalue'. unfold readStream. cbn [readLoop].
  rewrite Hvalue, Hvalue', !JsString.append_nil_l.
  rewrite (flush_frame P lines text Hlines), (dataLines_ignored lines Hnodata).
  now destruct (flush P text) as [ys [e|buffer]].
Qed.

Lemma dataLines_payloads (frame : list (string * Value)) :
  Forall (fun tv => JSON_parse P (JsString.trim (fst tv)) = inl (snd tv)) frame ->
  dataLines P (map (fun tv => dataLine (fst tv)) frame) = (map snd frame, None).
Proof.
  induction 1 as [|[t v] frame Htv _ IH]; [reflexivity|].
  cbn [map dataLines fst snd] in *. unfold dataLine in *.
  rewrite (startsWith_append "data:" t).
  change (JsString.drop 5 ("data:" ++ t)) with t.
  now rewrite Htv, IH.
Qed.

Lemma isLine_dataLine (t : string) : noLF t = true -> isLine (dataLine t).
Proof. intros Ht. split; [exact Ht | discriminate]. Qed.

Lemma flush_encodeStream (frames : list (list (string * Value))) :
  Forall (Forall (fun tv =>
            noLF (fst tv) = true /\
            JSON_parse P (JsString.trim (fst tv)) = inl (snd tv))) frames ->
  flush P (encodeStream frames) = (concat (map (map snd) frames), inr "").
Proof.
  induction 1 as [|frame frames Hframe _ IH].
  - now apply flush_none.
  - cbn [encodeStream fold_right map concat].
    fold (encodeStream frames).
    rewrite flush_frame.
    + rewrite dataLines_payloads, IH; [reflexivity|].
      eapply Forall_impl; [exact Hframe|]. now intros tv [_ H].
    + clear IH. induction Hframe as [|tv frame [Htv _] _ IHf]; constructor;
        [now apply isLine_dataLine | exact IHf].
Qed.

(** X11: writing frames and reading them back.  When a server writes each
    payload as a [data:] line holding a JSON text without line feed, one
    or more lines to a frame, and ends each frame with a blank line, the
    decoder yields the values of all these texts, frame after frame and
    line after line, however the bytes are cut into chunks, and ends
    without error when the stream ends. *)
Theorem frames_round_trip
    (frames : list (list (string * Value)))
    (chunks : list (list Byte.byte)) (st : DecoderState P) :
  Forall (Forall (fun tv =>
            noLF (fst tv) = true /\
            JSON_parse P (JsString.trim (fst tv)) = inl (snd tv))) frames ->
  decode P (decoder_new P) (concat chunks) = (st, encodeStream frames) ->
  readStream P (map Chunk chunks ++ [Done]) =
  (concat (map (map snd) frames), Ended).
Proof.
  intros Hframes Hdecode. unfold readStream.
  rewrite readLoop_chunks by reflexivity. cbn [readLoop].
  rewrite Hdecode, JsString.append_nil_l, (flush_encodeStream frames Hframes).
  now rewrite app_nil_r.
Qed.

End FrameProperties.

(** X10, witness: a comment frame before a batch. *)
Lemma frame_without_data_is_skipped_witness :
  readStream examplePlatform
    [Chunk (bytes (frameOf [": keep-alive"; "event: tick"] ++
                   "data: " ++ exampleBatch ++ JsString.LFLF)); Done] =
  readStream examplePlatform
    [Chunk (bytes ("data: " ++ exampleBatch ++ JsString.LFLF)); Done].
Proof.
  apply (frame_without_data_is_skipped examplePlatform
           [": keep-alive"; "event: tick"]
           ("data: " ++ exampleBatch ++ JsString.LFLF) _ _ tt [Done]).
  - repeat constructor; discriminate.
  - repeat constructor.
  - reflexivity.
  - reflexivity.
Defined.

(** X11, witness: a frame of two payloads and a frame of one, read in three
    chunks that cut the first frame. *)
Lemma frames_round_trip_witness :
  readStream examplePlatform
    (map Chunk
       [ bytes "data: []";
         bytes (String JsString.LF ("data:" ++ exampleBatch ++ JsString.LFLF
                                    ++ "data:"));
         bytes (" 1 " ++ JsString.LFLF) ] ++ [Done]) =
  ([VArray []; exampleBatchValue; VNumber 1], Ended).
Proof.
  apply (frames_round_trip examplePlatform
           [ [(" []", VArray []); (exampleBatch, exampleBatchValue)];
             [(" 1 ", VNumber 1)] ] _ tt).
  - repeat constructor.
  - reflexivity.
Defined.

(** ** Signature tables *)

(** The input is named [n]. *)
Definition namedInput (n : string) (input : AbiParameter) : bool :=
  match param_name input with
  | Some m => String.eqb m n
  | None => false
  end.

(** The own properties that the loop over the inputs writes. *)
Definition ownTypes (inputs : list AbiParameter) (own : gmap string ZodMiniType)
  : gmap string ZodMiniType :=
  fold_left
    (fun types input =>
       match param_name input with
       | Some m =>
           if JsString.truthy m then <[m := transform (param_type input)]> types
           else types
       | None => types
       end) inputs own.

Lemma ownTypes_lookup (inputs : list AbiParameter) (n : string)
    (types : gmap string ZodMiniType) :
  ownTypes inputs types !! n =
  match (if JsString.truthy n then last (List.filter (namedInput n) inputs)
         else None) with
  | Some input => Some (transform (param_type input))
  | None => types !! n
  end.
Proof.
  unfold ownTypes. revert types. induction inputs as [|input inputs IH]; intros types.
  - simpl. now destruct (JsString.truthy n).
  - cbn [fold_left List.filter]. rewrite IH. unfold namedInput at 2.
    destruct (param_name input) as [m|] eqn:Hname; [|reflexivity].
    destruct (String.eqb_spec m n) as [->|Hne].
    + destruct (JsString.truthy n) eqn:Hn; [|reflexivity].
      rewrite last_cons.
      destruct (last (List.filter (namedInput n) inputs)); [reflexivity|].
      now rewrite lookup_insert_eq.
    + destruct (JsString.truthy n);
        destruct (last (List.filter (namedInput n) inputs));
        destruct (JsString.truthy m); try reflexivity;
        now rewrite lookup_insert_ne.
Qed.

(** No input is named [__proto__]. *)
Definition plainInputs (inputs : list AbiParameter) : Prop :=
  Forall (fun input => param_name input <> Some PROTO) inputs.

Lemma lowerChar_idempotent (a : ascii) :
  JsString.lowerChar (JsString.lowerChar a) = JsString.lowerChar a.
Proof. destruct a as [[] [] [] [] [] [] [] []]; reflexivity. Qed.

Lemma toLowerCase_idempotent (s : string) :
  JsString.toLowerCase (JsString.toLowerCase s) = JsString.toLowerCase s.
Proof.
  induction s as [|a s IH]; [reflexivity|].
  simpl. now rewrite lowerChar_idempotent, IH.
Qed.

Section SignatureTables.

Variable P : Platform.

(** Without an input named [__proto__] the object [types] keeps its
    prototype and holds the own properties the loop writes. *)
Lemma inputTypes_tracked (inputs : list AbiParameter)
    (own : gmap string ZodMiniType) :
  plainInputs inputs ->
  inputTypes P inputs (TrackedTypes own) = inr (TrackedTypes (ownTypes inputs own)).
Proof.
  unfold ownTypes. intros Hplain. revert own.
  induction Hplain as [|input inputs Hinput _ IH]; intros own;
    cbn [inputTypes fold_left]; [reflexivity|].
  destruct (param_name input) as [m|]; [|apply IH].
  destruct (JsString.truthy m); [|apply IH].
  cbn [typesSet].
  destruct (String.eqb_spec m PROTO) as [->|_]; [now contradiction Hinput|].
  apply IH.
Qed.

(** X12: the object [types] of one signature none of whose inputs is named
    [__proto__].  A column name finds the schema of the last input that
    bears it: an earlier input of the same name is overridden.  An input
    without a name is left out, and a name that no input bears is read
    from the prototype chain: it finds nothing, unless it is the name of a
    member that objects inherit. *)
Theorem inputTypes_lookup (inputs : list AbiParameter) (n : string) :
  plainInputs inputs ->
  exists own,
    inputTypes P inputs (TrackedTypes ∅) = inr (TrackedTypes own) /\
    typesGet P (TrackedTypes own) n =
    inr (match (if JsString.truthy n
                then last (List.filter (namedInput n) inputs) else None) with
         | Some input => Some (IsSchema P (transform (param_type input)))
         | None => inherited P n
         end).
Proof.
  intros Hplain. exists (ownTypes inputs ∅).
  split; [now apply inputTypes_tracked|].
  cbn [typesGet]. rewrite ownTypes_lookup, lookup_empty.
  destruct (JsString.truthy n); [|reflexivity].
  now destruct (last (List.filter (namedInput n) inputs)).
Qed.

(** The names under which tracked signatures are filed are in lower
    case. *)
Definition lowerKeys (signatureTypes : SignatureTypes P) : Prop :=
  match signatureTypes with
  | TrackedTables _ own =>
      forall t, is_Some (own !! t) -> JsString.toLowerCase t = t
  | UntrackedTables _ _ => True
  end.

Lemma tablesSet_lowerKeys (n : string) (types : TypesObject (Foreign P))
    (acc acc' : SignatureTypes P) :
  lowerKeys acc ->
  tablesSet P (JsString.toLowerCase n) types acc = inr acc' ->
  lowerKeys acc'.
Proof.
  destruct acc as [own|f]; cbn [tablesSet lowerKeys].
  - intros Hacc. destruct (String.eqb (JsString.toLowerCase n) PROTO).
    + destruct (foreign_set P _ _ _); [discriminate|].
      intros Heq. inversion Heq. exact I.
    + intros Heq. inversion Heq. cbn [lowerKeys]. intros t Hsome.
      destruct (String.eqb_spec (JsString.toLowerCase n) t) as [<-|Hne].
      * apply toLowerCase_idempotent.
      * rewrite lookup_insert_ne in Hsome by exact Hne. now apply Hacc.
  - intros _. destruct (foreign_set P _ _ _); [discriminate|].
    intros Heq. inversion Heq. exact I.
Qed.

Lemma buildSignatureTypes_keys (signatures : list string)
    (acc result : SignatureTypes P) :
  lowerKeys acc ->
  buildSignatureTypes P signatures acc = inr result ->
  lowerKeys result.
Proof.
  revert acc. induction signatures as [|signature rest IH]; intros acc Hacc;
    cbn [buildSignatureTypes].
  - intros Heq. inversion Heq; subst. exact Hacc.
  - destruct (AbiItem_from P signature) as [e|abiItem]; [discriminate|].
    destruct (item_name abiItem) as [n|]; [|now apply IH].
    destruct (inputTypes P (item_inputs abiItem) (TrackedTypes ∅)) as [e|types];
      [discriminate|].
    destruct (tablesSet P (JsString.toLowerCase n) types acc) as [e|acc'] eqn:Hset;
      [discriminate|].
    apply IH. eapply tablesSet_lowerKeys; [exact Hacc | exact Hset].
Qed.

(** X13: signatures are filed under their lower-cased names and looked up
    by the table name as resolved.  A table name with an upper-case letter
    therefore finds no signature; unless the name is one that objects
    inherit, the type of its columns is [standardColumnTypes[name]]. *)
Theorem uppercase_table_finds_no_signature
    (signatures : list string) (m : gmap string (TypesObject (Foreign P)))
    (t name : string) :
  buildSignatureTypes P signatures (TrackedTables P ∅) = inr (TrackedTables P m) ->
  JsString.toLowerCase t <> t ->
  m !! t = None /\
  (Object_prototype_get P t = None ->
   columnType P (TrackedTables P m) t name = inr (standardType P name)).
Proof.
  intros Hm Hupper.
  assert (Hnone : m !! t = None).
  { destruct (m !! t) as [types|] eqn:Hlookup; [|reflexivity].
    exfalso. apply Hupper.
    apply (buildSignatureTypes_keys signatures (TrackedTables P ∅)
             (TrackedTables P m)); [|exact Hm|now rewrite Hlookup].
    intros t' [x Hx]. now rewrite lookup_empty in Hx. }
  split; [exact Hnone|]. intros Hplain. unfold columnType, signatureType.
  rewrite Hnone, Hplain.
  now destruct (bool_decide (t ∈ standardTables)).
Qed.

End SignatureTables.

(** ** Schemas of array types *)

(** The type starts with [bytes], [int] or [uint]. *)
Definition bytesOrInt (type : string) : bool :=
  JsString.startsWith "bytes" type
  || JsString.startsWith "int" type || JsString.startsWith "uint" type.

(** X14: [transform] builds an array schema exactly for the types that
    start with [bytes], [int] or [uint] and hold a bracket, and the array
    is never nested: its items are hex strings, numbers or big integers.
    A type that starts with none of the three and is neither [address]
    nor [bool] gets the schema of a plain string, arrays such as
    [address[]], [bool[]] and [string[]] included. *)
Theorem transform_array_only_bytes_and_ints (type : string) :
  ((exists item, transform type = z_array item) <->
   bytesOrInt type && JsString.includes "[" type = true) /\
  (forall item, transform type = z_array item ->
     item = z_hex \/ item = z_transform ToNumber \/ item = z_transform ToBigInt) /\
  (bytesOrInt type = false -> type <> "address" -> type <> "bool" ->
   transform type = z_string).
Proof.
  unfold transform, bytesOrInt.
  destruct (String.eqb_spec type "address") as [->|Haddress];
    [split; [split; [intros [item H]; discriminate H | discriminate]
            |split; [discriminate | intros _ H; now contradiction H]]|].
  destruct (String.eqb_spec type "bool") as [->|Hbool];
    [split; [split; [intros [item H]; discriminate H | discriminate]
            |split; [discriminate | intros _ _ H; now contradiction H]]|].
  destruct (JsString.startsWith "bytes" type); cbn [orb].
  - destruct (JsString.includes "[" type); cbn [andb].
    + split; [split; [reflexivity | intros _; now exists z_hex]|].
      split; [intros item H; inversion H; auto | discriminate].
    + split; [split; [intros [item H]; discriminate H | discriminate]|].
      split; discriminate.
  - destruct (JsString.startsWith "int" type || JsString.startsWith "uint" type);
      cbv zeta.
    + destruct (JsString.includes "[" type); cbn [andb].
      * split; [split; [reflexivity | intros _; eexists; reflexivity]|].
        split; [|discriminate].
        intros item.
        destruct (matchIntSize type) as [digits|];
          [destruct (JsString.truthy digits
                     && (JsString.digitsValue 0 digits <=? 48))|];
          intros H; inversion H; auto.
      * split; [split; [|discriminate]|split; [|discriminate]].
        -- intros [item H]. revert H.
           destruct (matchIntSize type) as [digits|];
             [destruct (JsString.truthy digits
                        && (JsString.digitsValue 0 digits <=? 48))|];
             discriminate.
        -- intros item.
           destruct (matchIntSize type) as [digits|];
             [destruct (JsString.truthy digits
                        && (JsString.digitsValue 0 digits <=? 48))|];
             discriminate.
    + cbn [andb]. split; [split; [intros [item H]; discriminate H | discriminate]|].
      split; [discriminate | reflexivity].
Qed.

(** ** Cells of a decoded row *)

Lemma assoc_setProp (k k' : string) (v : Value) (props : Properties) :
  assoc k (setProp k' v props) = if String.eqb k k' then Some v else assoc k props.
Proof.
  induction props as [|[k0 v0] props IH]; simpl.
  - now destruct (String.eqb k k').
  - destruct (String.eqb_spec k0 k') as [->|Hne]; simpl.
    + now destruct (String.eqb k k').
    + rewrite IH. destruct (String.eqb_spec k k') as [->|_]; [|reflexivity].
      destruct (String.eqb_spec k' k0) as [->|_]; [contradiction | reflexivity].
Qed.

Lemma assoc_setElement (k k' : string) (v : Value) (elements : Properties) :
  assoc k (setElement k' v elements) =
  if String.eqb k k' then Some v else assoc k elements.
Proof.
  induction elements as [|[k0 v0] elements IH]; simpl.
  - now destruct (String.eqb k k').
  - destruct (String.eqb_spec k0 k') as [->|Hne]; simpl.
    + now destruct (String.eqb k k').
    + destruct (indexValue k' <? indexValue k0); simpl.
      * now destruct (String.eqb k k').
      * rewrite IH. destruct (String.eqb_spec k k') as [->|_]; [|reflexivity].
        destruct (String.eqb_spec k' k0) as [->|_]; [contradiction | reflexivity].
Qed.

Lemma setProp_fresh (k : string) (v : Value) (props : Properties) :
  k ∉ names props -> setProp k v props = (props ++ [(k, v)])%list.
Proof.
  induction props as [|[k0 v0] props IH]; simpl; [reflexivity|].
  intros Hfresh. apply not_elem_of_cons in Hfresh. destruct Hfresh as [Hne Hfresh].
  destruct (String.eqb_spec k0 k) as [->|_]; [contradiction|].
  now rewrite (IH Hfresh).
Qed.

(** An own property after another one is written. *)
Lemma getOwn_defineOwn (k k' : string) (v : Value) (row : Row) :
  getOwn k (defineOwn k' v row) =
  if String.eqb k k' then Some v else getOwn k row.
Proof.
  unfold getOwn, defineOwn.
  destruct (String.eqb_spec k k') as [->|Hne].
  - destruct (isArrayIndex k'); cbn [row_elements row_properties];
      [rewrite assoc_setElement | rewrite assoc_setProp];
      now rewrite String.eqb_refl.
  - destruct (isArrayIndex k'), (isArrayIndex k);
      cbn [row_elements row_properties]; try reflexivity;
      [rewrite assoc_setElement | rewrite assoc_setProp];
      now destruct (String.eqb_spec k k').
Qed.

(** An assignment to another name leaves an own property as it is. *)
Lemma getOwn_assign_ne (k k' : string) (v : Value) (row : Row) :
  k <> k' -> getOwn k (assign k' v row) = getOwn k row.
Proof.
  intros Hne.
  assert (Hdefine : getOwn k (defineOwn k' v row) = getOwn k row).
  { rewrite getOwn_defineOwn. now destruct (String.eqb_spec k k'). }
  unfold assign. destruct (String.eqb k' PROTO); [|exact Hdefine].
  destruct (assoc k' (row_properties row)); [exact Hdefine|].
  destruct (inheritsAccessor (row_prototype row)); [|exact Hdefine].
  now destruct v.
Qed.

(** An assignment to a name other than [__proto__] is read back. *)
Lemma getOwn_assign_eq (k : string) (v : Value) (row : Row) :
  k <> PROTO -> getOwn k (assign k v row) = Some v.
Proof.
  intros Hne. rewrite (assign_defineOwn _ _ _ Hne), getOwn_defineOwn.
  now rewrite String.eqb_refl.
Qed.

Section CellProperties.

Variable P : Platform.
Variable signatureTypes : SignatureTypes P.
Variable query : string.
Variable sourceTableName : option string.

Lemma parseColumns_keeps (row_raw : list Value) (columns : list Column)
    (j : nat) (row row' : Row) (k : string) :
  parseColumns P signatureTypes query sourceTableName row_raw j columns row
    = inr row' ->
  k ∉ map name columns ->
  getOwn k row' = getOwn k row.
Proof.
  revert j row. induction columns as [|column columns IH]; intros j row; simpl.
  - intros Heq _. now inversion Heq.
  - destruct (resolveTableName P (name column) query sourceTableName)
      as [e|tableName]; [discriminate|].
    destruct (decodeCell P signatureTypes tableName (name column) _)
      as [e|value]; [discriminate|].
    intros Hrest Hk. apply not_elem_of_cons in Hk. destruct Hk as [Hne Hk].
    now rewrite (IH _ _ Hrest Hk), getOwn_assign_ne.
Qed.

Lemma parseColumns_last (row_raw : list Value) (pre post : list Column)
    (column : Column) (j : nat) (row row' : Row) :
  parseColumns P signatureTypes query sourceTableName row_raw j
    (pre ++ column :: post) row = inr row' ->
  name column ∉ map name post ->
  name column <> PROTO ->
  exists tableName value,
    resolveTableName P (name column) query sourceTableName = inr tableName /\
    decodeCell P signatureTypes tableName (name column)
      (default VUndefined (row_raw !! (j + length pre)%nat)) = inr value /\
    getOwn (name column) row' = Some value.
Proof.
  revert j row. induction pre as [|first pre IH]; intros j row; cbn [app].
  - cbn [parseColumns]. rewrite Nat.add_0_r.
    destruct (resolveTableName P (name column) query sourceTableName)
      as [e|tableName]; [discriminate|].
    destruct (decodeCell P signatureTypes tableName (name column) _)
      as [e|value] eqn:Hcell; [discriminate|].
    intros Hrest Hlast Hproto. exists tableName, value.
    split; [reflexivity|]. split; [exact Hcell|].
    now rewrite (parseColumns_keeps _ _ _ _ _ _ Hrest Hlast), getOwn_assign_eq.
  - cbn [parseColumns].
    destruct (resolveTableName P (name first) query sourceTableName)
      as [e|tableName]; [discriminate|].
    destruct (decodeCell P signatureTypes tableName (name first) _)
      as [e|value]; [discriminate|].
    intros Hrest Hlast Hproto. destruct (IH _ _ Hrest Hlast Hproto) as [t [v H]].
    exists t, v. simpl length. now rewrite Nat.add_succ_r.
Qed.

(** X15: when a column name other than [__proto__] occurs more than once,
    its last occurrence decides the value: the record holds, as its own
    property of that name, the decoded cell of the last column that bears
    it (the cell missing from a short row read as [undefined]). *)
Theorem last_column_of_a_name_wins
    (row_raw : list Value) (pre post : list Column) (column : Column)
    (row : Row) :
  parseRow P signatureTypes query sourceTableName (pre ++ column :: post) row_raw
    = inr row ->
  name column ∉ map name post ->
  name column <> PROTO ->
  exists tableName value,
    resolveTableName P (name column) query sourceTableName = inr tableName /\
    decodeCell P signatureTypes tableName (name column)
      (default VUndefined (row_raw !! length pre)) = inr value /\
    getOwn (name column) row = Some value.
Proof.
  unfold parseRow. intros Hrow Hlast Hproto.
  destruct (parseColumns_last _ _ _ _ _ _ _ Hrow Hlast Hproto) as [t [v H]].
  exists t, v. exact H.
Qed.

Lemma parseColumns_untyped (row_raw : list Value) (columns : list Column)
    (j : nat) (row : Row) :
  Forall (fun column =>
            resolveTableName P (name column) query sourceTableName = inr None)
    columns ->
  NoDup (map name columns) ->
  PROTO ∉ map name columns ->
  Forall (fun k => isArrayIndex k = false) (map name columns) ->
  (forall k, k ∈ map name columns -> k ∉ names (row_properties row)) ->
  (j + length columns = length row_raw)%nat ->
  parseColumns P signatureTypes query sourceTableName row_raw j columns row =
  inr {| row_elements := row_elements row;
         row_properties :=
           (row_properties row ++ zip (map name columns) (drop j row_raw))%list;
         row_prototype := row_prototype row |}.
Proof.
  revert j row. induction columns as [|column columns IH];
    intros j row Hnone Hnodup Hproto Hnames Hfresh Hlen; cbn [parseColumns map].
  - simpl. rewrite app_nil_r. now destruct row.
  - apply Forall_cons in Hnone. destruct Hnone as [Hcol Hnone].
    apply NoDup_cons in Hnodup. destruct Hnodup as [Hnotin Hnodup].
    cbn [map] in Hproto, Hnames.
    apply not_elem_of_cons in Hproto. destruct Hproto as [Hne Hproto].
    apply Forall_cons in Hnames. destruct Hnames as [Hname Hnames].
    simpl in Hlen. rewrite Hcol. cbn [decodeCell].
    destruct (row_raw !! j) as [x|] eqn:Hx;
      [|apply lookup_ge_None in Hx; lia].
    rewrite (drop_S _ _ _ Hx). cbn [default zip zip_with].
    rewrite assign_defineOwn by (intros Heq; now apply Hne).
    unfold defineOwn. rewrite Hname.
    rewrite setProp_fresh by (apply Hfresh, list_elem_of_here).
    rewrite IH; cbn [row_elements row_properties row_prototype];
      [now rewrite <- app_assoc | exact Hnone | exact Hnodup | exact Hproto
      | exact Hnames | | lia].
    intros k Hk. unfold names. rewrite map_app. simpl.
    rewrite elem_of_app, list_elem_of_singleton. intros [Hin| ->].
    + apply (Hfresh k); [now apply list_elem_of_further | exact Hin].
    + contradiction.
Qed.

(** X16: without a table nothing is decoded.  When no column of the query
    resolves to a table (no qualifier matches and the query names no
    table), a row under distinct column names, none of them an array index
    or [__proto__], comes out as the column names paired with the raw
    cells, standard column names included. *)
Theorem untyped_row_is_kept
    (columns : list Column) (row_raw : list Value) :
  Forall (fun column =>
            resolveTableName P (name column) query sourceTableName = inr None)
    columns ->
  NoDup (map name columns) ->
  PROTO ∉ map name columns ->
  Forall (fun k => isArrayIndex k = false) (map name columns) ->
  length row_raw = length columns ->
  parseRow P signatureTypes query sourceTableName columns row_raw =
  inr {| row_elements := [];
         row_properties := zip (map name columns) row_raw;
         row_prototype := ObjectPrototype |}.
Proof.
  intros Hnone Hnodup Hproto Hnames Hlen. unfold parseRow.
  rewrite parseColumns_untyped; try assumption; try reflexivity.
  - intros k _ Hin. now apply elem_of_nil in Hin.
  - simpl. lia.
Qed.

End CellProperties.

(** ** Inputs of the examples of this part *)

(** [event Transfer(address indexed from, address indexed to, uint256 value)]
    as an ABI item, and a platform whose ABI reader returns it. *)
Definition transferItem : AbiItem :=
  {| item_name := Some "Transfer";
     item_inputs := [ {| param_name := Some "from"; param_type := "address" |};
                      {| param_name := Some "to"; param_type := "address" |};
                      {| param_name := Some "value"; param_type := "uint256" |} ] |}.

Definition abiPlatform : Platform :=
  {| JSON_parse := example_JSON_parse;
     DecoderState := unit;
     decoder_new := tt;
     decode_byte := fun st b => (st, String (ascii_of_byte b) "");
     RegExp_match := fun _ _ _ => RegExpNull;
     AbiItem_from := fun _ => inr transferItem;
     JS_Number := fun v => v;
     JS_BigInt := fun v => inr v;
     parseTimestamp := fun v => inr v;
     URL_error := example_URL_error;
     Foreign := ExampleForeign;
     Object_prototype_get := example_Object_prototype_get;
     foreign_get := fun _ _ => inr None;
     foreign_set := fun f _ _ => inr f;
     foreign_truthy := fun _ => true;
     foreign_parse := fun _ _ => inl notAFunction;
     foreign_of := fun _ => Opaque |}.

Definition exampleColumns : list Column :=
  [ {| name := "a"; pgtype := "text" |}; {| name := "b"; pgtype := "int8" |} ].

(** The signature table of the transfer event. *)
Definition transferTables : gmap string (TypesObject ExampleForeign) :=
  <["transfer" := TrackedTypes (ownTypes (item_inputs transferItem) ∅)]> ∅.

Lemma plainInputs_transfer : plainInputs (item_inputs transferItem).
Proof. repeat constructor; discriminate. Qed.

(** X12, witness: the inputs of the transfer event, read under [value],
    under [memo] and under [constructor]. *)
Lemma inputTypes_lookup_witness :
  typesGet abiPlatform (TrackedTypes (ownTypes (item_inputs transferItem) ∅))
    "value" = inr (Some (IsSchema abiPlatform (z_transform ToBigInt))) /\
  typesGet abiPlatform (TrackedTypes (ownTypes (item_inputs transferItem) ∅))
    "memo" = inr None /\
  typesGet abiPlatform (TrackedTypes (ownTypes (item_inputs transferItem) ∅))
    "constructor" = inr (Some (IsForeign abiPlatform (BuiltinFunction "constructor"))).
Proof.
  assert (Hread : forall n,
            typesGet abiPlatform
              (TrackedTypes (ownTypes (item_inputs transferItem) ∅)) n =
            inr (match (if JsString.truthy n
                        then last (List.filter (namedInput n)
                                     (item_inputs transferItem)) else None) with
                 | Some input => Some (IsSchema abiPlatform (transform (param_type input)))
                 | None => inherited abiPlatform n
                 end)).
  { intros n.
    destruct (inputTypes_lookup abiPlatform (item_inputs transferItem) n
                plainInputs_transfer) as [own [Hown Hget]].
    rewrite (inputTypes_tracked abiPlatform _ _ plainInputs_transfer) in Hown.
    injection Hown as <-. exact Hget. }
  split; [|split]; rewrite Hread; reflexivity.
Defined.

(** X13, witness: the table [Transfer], written with its capital, against
    the signature of the transfer event. *)
Lemma uppercase_table_finds_no_signature_witness :
  transferTables !! "Transfer" = None /\
  columnType abiPlatform (TrackedTables abiPlatform transferTables)
    "Transfer" "from" = inr (Some (IsSchema abiPlatform z_hex)).
Proof.
  destruct (uppercase_table_finds_no_signature abiPlatform
              ["event Transfer(address indexed from, address indexed to, uint256 value)"]
              transferTables "Transfer" "from") as [Hnone Htype].
  - reflexivity.
  - discriminate.
  - split; [exact Hnone|]. now rewrite Htype.
Defined.

(** X14, witness: an array of [bytes32] and arrays of other types. *)
Lemma transform_array_only_bytes_and_ints_witness :
  (exists item, transform "bytes32[]" = z_array item) /\
  transform "address[]" = z_string /\
  transform "bool[]" = z_string /\
  transform "string[]" = z_string.
Proof.
  split; [|split; [|split]].
  - apply (transform_array_only_bytes_and_ints "bytes32[]"). reflexivity.
  - apply (transform_array_only_bytes_and_ints "address[]");
      [reflexivity | discriminate | discriminate].
  - apply (transform_array_only_bytes_and_ints "bool[]");
      [reflexivity | discriminate | discriminate].
  - apply (transform_array_only_bytes_and_ints "string[]");
      [reflexivity | discriminate | discriminate].
Defined.

(** X15, witness: the columns [a], [b], [a]; the third cell is kept under
    [a]. *)
Lemma last_column_of_a_name_wins_witness :
  exists tableName value,
    resolveTableName examplePlatform "a" "select a, b, a from t" None
      = inr tableName /\
    decodeCell examplePlatform (TrackedTables examplePlatform ∅) tableName "a"
      (default VUndefined ([VString "x"; VNumber 1; VString "y"] !! 2%nat))
      = inr value /\
    getOwn "a"
      {| row_elements := [];
         row_properties := [("a", VString "y"); ("b", VNumber 1)];
         row_prototype := ObjectPrototype |} = Some value.
Proof.
  apply (last_column_of_a_name_wins examplePlatform
           (TrackedTables examplePlatform ∅) "select a, b, a from t"
           None [VString "x"; VNumber 1; VString "y"] exampleColumns []
           {| name := "a"; pgtype := "text" |}).
  - reflexivity.
  - apply not_elem_of_nil.
  - discriminate.
Defined.

(** X16, witness: a query without table; [block_num] is a standard column
    name and is kept as the number the server sent. *)
Lemma untyped_row_is_kept_witness :
  parseRow examplePlatform (TrackedTables examplePlatform ∅)
    "select 1 as block_num, 2 as b" None
    [ {| name := "block_num"; pgtype := "int8" |};
      {| name := "b"; pgtype := "int8" |} ]
    [VNumber 1; VNumber 2] =
  inr {| row_elements := [];
         row_properties := [("block_num", VNumber 1); ("b", VNumber 2)];
         row_prototype := ObjectPrototype |}.
Proof.
  apply (untyped_row_is_kept examplePlatform (TrackedTables examplePlatform ∅)
           "select 1 as block_num, 2 as b" None
           [ {| name := "block_num"; pgtype := "int8" |};
             {| name := "b"; pgtype := "int8" |} ]
           [VNumber 1; VNumber 2]).
  - repeat constructor.
  - repeat constructor; intros Hin;
      repeat (apply elem_of_cons in Hin; destruct Hin as [Hin|Hin];
              [discriminate Hin|]);
      now apply elem_of_nil in Hin.
  - intros Hin.
    repeat (apply elem_of_cons in Hin; destruct Hin as [Hin|Hin];
            [discriminate Hin|]).
    now apply elem_of_nil in Hin.
  - repeat constructor.
  - reflexivity.
Defined.

(** ** src/internal/emitter.ts *)

Section Emitter.

(** The payload of an event. *)
Variable Data : Type.

(** An argument a listener receives: the kind of an event, its payload, or
    the options object [{ id }]. *)
Inductive Arg : Type :=
| ArgEvent (event : string)
| ArgData (data : Data)
| ArgOptions (id : Z).

(** A listener registered with [on], and a call of a listener. *)
Record Listener : Type := { listens : string; handler : nat }.

Record Call : Type := { called : nat; args : list Arg }.

(** The state [create] closes over: the variable [id] and the listeners of
    the [EventEmitter], in the order of their registration. *)
Record EmitterState : Type := {
  emitter_id : Z;
  emitter_listeners : list Listener
}.

(** [create] (lines 42-62): [let id = -1], no listener. *)
Definition emitter_create : EmitterState :=
  {| emitter_id := -1; emitter_listeners := [] |}.

(** [on(event, handler)] *)
Definition emitter_on (event : string) (h : nat) (st : EmitterState)
  : EmitterState :=
  {| emitter_id := emitter_id st;
     emitter_listeners :=
       (emitter_listeners st ++ [{| listens := event; handler := h |}])%list |}.

(** [instance()]: [id++].  The object it returns holds [emit] below, which
    reads the variable [id] when it is called. *)
Definition emitter_instance (st : EmitterState) : EmitterState :=
  {| emitter_id := emitter_id st + 1; emitter_listeners := emitter_listeners st |}.

(** [e.emit(event, ...args)] of the [EventEmitter]: every listener of the
    event is called, in the order of registration. *)
Definition deliver (st : EmitterState) (event : string) (arguments : list Arg)
  : list Call :=
  map (fun l => {| called := handler l; args := arguments |})
    (List.filter (fun l => String.eqb (listens l) event) (emitter_listeners st)).

(** [emit(event, data)] of an instance (lines 49-54). *)
Definition emitter_emit (st : EmitterState) (event : string) (data : Data)
  : list Call :=
  (deliver st "debug" [ArgEvent event; ArgData data; ArgOptions (emitter_id st)]
   ++ deliver st event [ArgData data; ArgOptions (emitter_id st)])%list.

(** What a caller does to an emitter. *)
Inductive EmitterOp : Type :=
| OpOn (event : string) (h : nat)
| OpInstance.

Definition emitter_step (st : EmitterState) (op : EmitterOp) : EmitterState :=
  match op with
  | OpOn event h => emitter_on event h st
  | OpInstance => emitter_instance st
  end.

Definition emitter_run (ops : list EmitterOp) : EmitterState :=
  fold_left emitter_step ops emitter_create.

Definition instancesOf (ops : list EmitterOp) : nat :=
  length (List.filter (fun op => match op with OpInstance => true | _ => false end) ops).

Definition listenersOf (ops : list EmitterOp) : list Listener :=
  flat_map (fun op => match op with
                      | OpOn event h => [{| listens := event; handler := h |}]
                      | OpInstance => []
                      end) ops.

Lemma emitter_run_state (ops : list EmitterOp) (st : EmitterState) :
  fold_left emitter_step ops st =
  {| emitter_id := emitter_id st + Z.of_nat (instancesOf ops);
     emitter_listeners := (emitter_listeners st ++ listenersOf ops)%list |}.
Proof.
  revert st. induction ops as [|op ops IH]; intros st.
  - destruct st as [i l]. simpl. unfold instancesOf. simpl.
    now rewrite Z.add_0_r, app_nil_r.
  - cbn [fold_left]. rewrite IH. destruct op as [event h|]; simpl.
    + unfold instancesOf. simpl. now rewrite <- app_assoc.
    + unfold instancesOf. cbn [List.filter length]. f_equal. lia.
Qed.

(** X17: the id of an event is the number of [instance] calls made so far,
    less one, whichever instance emits it: all instances read the one
    variable [id], so an event emitted by an earlier call after a later
    call has begun carries the id of the later call.  Every listener of
    [debug] is called first and every listener of the event after, once
    per registration and in the order of registration. *)
Theorem emitter_id_is_shared (ops : list EmitterOp) (event : string) (data : Data) :
  let st := emitter_run ops in
  let id := Z.of_nat (instancesOf ops) - 1 in
  emitter_emit st event data =
  (map (fun l => {| called := handler l;
                    args := [ArgEvent event; ArgData data; ArgOptions id] |})
     (List.filter (fun l => String.eqb (listens l) "debug") (listenersOf ops))
   ++
   map (fun l => {| called := handler l; args := [ArgData data; ArgOptions id] |})
     (List.filter (fun l => String.eqb (listens l) event) (listenersOf ops)))%list.
Proof.
  cbv zeta. unfold emitter_run, emitter_emit, deliver.
  rewrite emitter_run_state. cbn [emitter_id emitter_listeners emitter_create app].
  replace (-1 + Z.of_nat (instancesOf ops)) with (Z.of_nat (instancesOf ops) - 1)
    by lia.
  reflexivity.
Qed.

End Emitter.

(** ** src/QueryBuilder.ts *)

(** The state [from] closes over: the variable [cursor] and the array
    [signatures], shared by every builder made from one call of [from]. *)
Record BuilderStore : Type := {
  store_cursor : option Cursor;
  store_signatures : list string
}.

(** The state when [from] starts. *)
Definition store_new : BuilderStore :=
  {| store_cursor := None; store_signatures := [] |}.

(** [inner(o)]: [cursor ??= o.cursor] and
    [signatures.push(...(o.signatures ?? []))]. *)
Definition inner (o_cursor : option Cursor) (o_signatures : option (list string))
    (store : BuilderStore) : BuilderStore :=
  {| store_cursor :=
       match store_cursor store with
       | Some cur => Some cur
       | None => o_cursor
       end;
     store_signatures :=
       (store_signatures store ++ default [] o_signatures)%list |}.

(** The methods of a builder; [WithAbi] carries [formatAbi(abi)]. *)
Inductive BuilderOp : Type :=
| AtCursor (cursor : Cursor)
| WithSignatures (signatures : list string)
| WithAbi (formatted : list string).

Definition builder_step (store : BuilderStore) (op : BuilderOp) : BuilderStore :=
  match op with
  | AtCursor cur => inner (Some cur) None store
  | WithSignatures sigs => inner None (Some sigs) store
  | WithAbi formatted => inner None (Some formatted) store
  end.

(** [from(options)] followed by a chain of methods: [from] itself calls
    [inner()] once. *)
Definition builder_from (ops : list BuilderOp) : BuilderStore :=
  fold_left builder_step ops (inner None None store_new).

Definition cursorsOf (ops : list BuilderOp) : list Cursor :=
  flat_map (fun op => match op with AtCursor cur => [cur] | _ => [] end) ops.

Definition signaturesOf (ops : list BuilderOp) : list string :=
  flat_map (fun op => match op with
                      | AtCursor _ => []
                      | WithSignatures sigs => sigs
                      | WithAbi formatted => formatted
                      end) ops.

(** A text without dollar sign. *)
Fixpoint noDollar (s : string) : bool :=
  match s with
  | EmptyString => true
  | String a s' => negb (Ascii.eqb a "$") && noDollar s'
  end.

(** The replacement text of [replaceAll] for one match of a string pattern:
    [$$] is a dollar, [$&] the match, [$`] the text before it, [$'] the
    text after it; any other text stands for itself (a string pattern has
    no groups, so [$1] is not special). *)
Fixpoint expand (matched before after replacement : string) : string :=
  match replacement with
  | EmptyString => EmptyString
  | String a r =>
      if Ascii.eqb a "$" then
        match r with
        | EmptyString => String a EmptyString
        | String b r' =>
            if Ascii.eqb b "$" then String "$" (expand matched before after r')
            else if Ascii.eqb b "&" then matched ++ expand matched before after r'
            else if Ascii.eqb b "`" then before ++ expand matched before after r'
            else if Ascii.eqb b "'" then after ++ expand matched before after r'
            else String a (String b (expand matched before after r'))
        end
      else String a (expand matched before after r)
  end.

(** [s.replaceAll(needle, replacement)] for a non-empty [needle]: the
    matches are found from left to right and do not overlap.  [before] is
    the text already passed and [skip] the number of characters of a match
    still to pass. *)
Fixpoint replaceFrom (needle replacement before : string) (skip : nat)
    (s : string) : string :=
  match s with
  | EmptyString => EmptyString
  | String a s' =>
      match skip with
      | S k => replaceFrom needle replacement (before ++ String a "") k s'
      | O =>
          if JsString.startsWith needle s then
            expand needle before (JsString.drop (String.length needle) s)
              replacement
            ++ replaceFrom needle replacement (before ++ String a "")
                 (String.length needle - 1) s'
          else
            String a (replaceFrom needle replacement (before ++ String a "") 0 s')
      end
  end.

Definition replaceAll (needle replacement s : string) : string :=
  replaceFrom needle replacement "" 0 s.

(** The placeholder of parameter number [i] (from 0): [`$${i + 1}`]. *)
Definition placeholder (i : nat) : string := "$" ++ pretty (Z.of_nat (S i)).

(** What [prepareQuery] takes from the platform and from [abitype]. *)
Record RegExp : Type := {
  regexp_test : string -> bool;
  regexp_replace : string -> string -> string
}.

Record SqlPlatform : Type := {
  (** [String(param)] *)
  String_of : Value -> string;
  (** [parseAbiItem(signature)] *)
  parseAbiItem : string -> Error + AbiItem;
  (** [new RegExp(source, flags)] *)
  RegExp_new : string -> string -> Error + RegExp
}.

Section PrepareQuery.

Variable Q : SqlPlatform.

(** The [forEach] over the parameters (lines 371-374), from parameter
    number [i]. *)
Fixpoint substitute (i : nat) (parameters : list Value) (query : string) : string :=
  match parameters with
  | [] => query
  | param :: rest =>
      substitute (S i) rest
        (replaceAll (placeholder i) (String_of Q param) query)
  end.

(** The source of the pattern that finds a quoted table. *)
Definition tablePattern (signatureName : string) : string :=
  "(from|join) " ++ JsString.quoted ("(" ++ signatureName ++ ")").

(** The loop over the signatures (lines 378-387). *)
Fixpoint selectSignatures (configured : list string) (query : string)
    (signatures : list string) : Error + (string * list string) :=
  match configured with
  | [] => inr (query, signatures)
  | signature :: rest =>
      match parseAbiItem Q signature with
      | inl e => inl e
      | inr abiItem =>
          match item_name abiItem with
          | None => selectSignatures rest query signatures
          | Some n =>
              match RegExp_new Q (tablePattern (JsString.toLowerCase n)) "gi" with
              | inl e => inl e
              | inr regex =>
                  if regexp_test regex query then
                    selectSignatures rest (regexp_replace regex query "$1 $2")
                      (signatures ++ [signature])
                  else selectSignatures rest query signatures
              end
          end
      end
  end.

(** [prepareQuery] (lines 368-390). *)
Definition prepareQuery (store : BuilderStore) (sql : string)
    (parameters : list Value) : Error + (string * list string) :=
  selectSignatures (store_signatures store) (substitute 0 parameters sql) [].

(** The options [executeQuery] and [streamQuery] pass to [fetch] and to
    [live] (lines 330-352). *)
Definition queryOptions (store : BuilderStore) (sql : string)
    (parameters : list Value) : Error + Options :=
  match prepareQuery store sql parameters with
  | inl e => inl e
  | inr (query, signatures) =>
      inr {| opt_cursor := store_cursor store;
             opt_signatures := Some signatures;
             opt_query := query;
             opt_retryCount := None;
             opt_signal := false |}
  end.

End PrepareQuery.

(** X18: of all the cursors given to [atCursor] along a chain, only the
    first is kept, because [inner] sets the cursor only while it is unset;
    every later [atCursor] changes nothing.  The signatures of
    [withSignatures] and [withAbi] pile up in the order of the calls,
    repetitions included. *)
Theorem builder_keeps_first_cursor (ops : list BuilderOp) :
  builder_from ops =
  {| store_cursor := head (cursorsOf ops);
     store_signatures := signaturesOf ops |}.
Proof.
  unfold builder_from.
  assert (Hgen : forall store,
             fold_left builder_step ops store =
             {| store_cursor :=
                  match store_cursor store with
                  | Some cur => Some cur
                  | None => head (cursorsOf ops)
                  end;
                store_signatures :=
                  (store_signatures store ++ signaturesOf ops)%list |}).
  { induction ops as [|op ops IH]; intros [cur sigs].
    - simpl. rewrite app_nil_r. now destruct cur.
    - cbn [fold_left]. rewrite IH.
      destruct op as [cur'|sigs'|formatted]; destruct cur; simpl;
        rewrite ?app_nil_r, <- ?app_assoc; reflexivity. }
  rewrite Hgen. reflexivity.
Qed.

(** ** Parameters written into the query *)

Lemma noDollar_append (s t : string) :
  noDollar (s ++ t) = noDollar s && noDollar t.
Proof.
  induction s as [|a s IH]; [reflexivity|].
  rewrite JsString.append_cons. simpl. rewrite IH. now rewrite andb_assoc.
Qed.

Lemma expand_plain (matched before after replacement : string) :
  noDollar replacement = true ->
  expand matched before after replacement = replacement.
Proof.
  induction replacement as [|a r IH]; [reflexivity|].
  cbn [noDollar]. intros H. apply andb_true_iff in H. destruct H as [Ha Hr].
  apply negb_true_iff in Ha. cbn [expand]. rewrite Ha. now rewrite IH.
Qed.

(** A replacement without dollar sign does not look at the text before a
    match. *)
Lemma replaceFrom_before (needle replacement before before' : string)
    (skip : nat) (s : string) :
  noDollar replacement = true ->
  replaceFrom needle replacement before skip s =
  replaceFrom needle replacement before' skip s.
Proof.
  intros Hr. revert before before' skip.
  induction s as [|a s IH]; intros before before' skip; [reflexivity|].
  cbn [replaceFrom]. destruct skip as [|k]; [|apply IH].
  destruct (JsString.startsWith needle (String a s)).
  - rewrite !(expand_plain _ _ _ _ Hr). f_equal. apply IH.
  - f_equal. apply IH.
Qed.

(** A text without dollar sign holds no placeholder. *)
Lemma replaceAll_plain (x replacement s t : string) :
  noDollar replacement = true ->
  noDollar s = true ->
  replaceAll (String "$" x) replacement (s ++ t) =
  s ++ replaceAll (String "$" x) replacement t.
Proof.
  intros Hr. unfold replaceAll. induction s as [|a s IH]; [reflexivity|].
  cbn [noDollar]. intros H. apply andb_true_iff in H. destruct H as [Ha Hs].
  apply negb_true_iff in Ha. rewrite !JsString.append_cons. cbn [replaceFrom].
  unfold JsString.startsWith. cbn [String.prefix].
  destruct (ascii_dec "$" a) as [<-|_]; [discriminate Ha|].
  f_equal. rewrite (replaceFrom_before _ _ _ "" 0 _ Hr). now apply IH.
Qed.

Lemma replaceAll_absent (x replacement s : string) :
  noDollar replacement = true ->
  noDollar s = true ->
  replaceAll (String "$" x) replacement s = s.
Proof.
  intros Hr Hs. rewrite <- (JsString.append_nil_r s) at 1.
  rewrite (replaceAll_plain _ _ _ _ Hr Hs). unfold replaceAll. cbn [replaceFrom].
  apply JsString.append_nil_r.
Qed.

Lemma replaceFrom_step (needle replacement before : string) (a : ascii)
    (s : string) :
  replaceFrom needle replacement before 0 (String a s) =
  if JsString.startsWith needle (String a s) then
    expand needle before (JsString.drop (String.length needle) (String a s))
      replacement
    ++ replaceFrom needle replacement (before ++ String a "")
         (String.length needle - 1) s
  else String a (replaceFrom needle replacement (before ++ String a "") 0 s).
Proof. reflexivity. Qed.

(** A dollar sign followed by the character of the needle is a match, and
    the scan goes on after it. *)
Lemma replaceAll_match (d : ascii) (replacement rest : string) :
  noDollar replacement = true ->
  replaceAll (String "$" (String d "")) replacement (String "$" (String d rest)) =
  replacement ++ replaceAll (String "$" (String d "")) replacement rest.
Proof.
  intros Hr. unfold replaceAll. cbn [replaceFrom].
  unfold JsString.startsWith. cbn [String.prefix].
  destruct (ascii_dec "$" "$") as [_|Hne]; [|contradiction].
  destruct (ascii_dec d d) as [_|Hne]; [|contradiction].
  assert (Hempty : String.prefix "" rest = true) by now destruct rest.
  rewrite Hempty, (expand_plain _ _ _ _ Hr). cbn [String.length Nat.sub replaceFrom].
  f_equal. apply (replaceFrom_before _ _ _ _ _ _ Hr).
Qed.

(** A dollar sign followed by another character is kept. *)
Lemma replaceAll_miss (d a : ascii) (replacement rest : string) :
  noDollar replacement = true ->
  a <> d ->
  replaceAll (String "$" (String d "")) replacement (String "$" (String a rest)) =
  String "$" (replaceAll (String "$" (String d "")) replacement (String a rest)).
Proof.
  intros Hr Hne. unfold replaceAll. rewrite replaceFrom_step.
  unfold JsString.startsWith. cbn [String.prefix].
  destruct (ascii_dec "$" "$") as [_|Hne']; [|contradiction].
  destruct (ascii_dec d a) as [->|_]; [contradiction|].
  f_equal. apply (replaceFrom_before _ _ _ _ _ _ Hr).
Qed.

(** *** A compiled query as a list of pieces

    The text a query compiler writes is plain text without dollar sign
    between placeholders; a placeholder is a dollar sign and a number
    without leading zero, kept here as its first digit and the text of the
    digits after it. *)

Inductive Piece : Type :=
| Plain (text : string)
| Placeholder (first : nat) (rest : string).

(** The character of a digit. *)
Definition digitChar (d : nat) : ascii := ascii_of_nat (48 + d).

Definition renderPiece (piece : Piece) : string :=
  match piece with
  | Plain text => text
  | Placeholder first rest => String "$" (String (digitChar first) rest)
  end.

Fixpoint render (pieces : list Piece) : string :=
  match pieces with
  | [] => ""
  | piece :: rest => renderPiece piece ++ render rest
  end.

(** The pieces after the placeholders that start with the digit [d] are
    replaced by [text]. *)
Definition fillPiece (d : nat) (text : string) (piece : Piece) : Piece :=
  match piece with
  | Placeholder first rest =>
      if (first =? d)%nat then Plain (text ++ rest) else piece
  | Plain _ => piece
  end.

(** A piece of a query whose placeholders not yet answered start with a
    digit above [i], at most 9 and at most [n]. *)
Definition wellFormed (i n : nat) (piece : Piece) : Prop :=
  match piece with
  | Plain text => noDollar text = true
  | Placeholder first rest =>
      (i < first <= 9)%nat /\ (first <= n)%nat /\ noDollar rest = true
  end.

Lemma digitChar_inj (d d' : nat) :
  (d <= 9)%nat -> (d' <= 9)%nat -> digitChar d = digitChar d' -> d = d'.
Proof.
  intros Hd Hd' Heq. unfold digitChar in Heq.
  apply (f_equal nat_of_ascii) in Heq.
  rewrite !nat_ascii_embedding in Heq by lia. lia.
Qed.

Lemma digitChar_noDollar (d : nat) :
  (d <= 9)%nat -> Ascii.eqb (digitChar d) "$" = false.
Proof.
  intros Hd. apply Ascii.eqb_neq. intros Heq. unfold digitChar in Heq.
  apply (f_equal nat_of_ascii) in Heq.
  rewrite nat_ascii_embedding in Heq by lia.
  change (nat_of_ascii "$") with 36%nat in Heq. lia.
Qed.

(** One pass of [replaceAll] for a placeholder of one digit. *)
Lemma replaceAll_render (i n d : nat) (text : string) (pieces : list Piece) :
  (d <= 9)%nat ->
  noDollar text = true ->
  Forall (wellFormed i n) pieces ->
  replaceAll (String "$" (String (digitChar d) "")) text (render pieces) =
  render (map (fillPiece d text) pieces).
Proof.
  intros Hd Htext Hall.
  induction Hall as [|piece pieces Hpiece _ IH]; cbn [render map]; [reflexivity|].
  destruct piece as [plain|first rest]; cbn [wellFormed] in Hpiece;
    cbn [renderPiece fillPiece].
  - rewrite (replaceAll_plain _ _ _ _ Htext Hpiece). now rewrite IH.
  - destruct Hpiece as [Hfirst [_ Hrest]]. rewrite !JsString.append_cons.
    destruct (Nat.eqb_spec first d) as [->|Hne]; cbn [renderPiece].
    + rewrite (replaceAll_match _ _ _ Htext).
      rewrite (replaceAll_plain _ _ _ _ Htext Hrest), IH.
      now rewrite JsString.append_assoc.
    + rewrite (replaceAll_miss _ _ _ _ Htext)
        by (intros Heq; apply Hne; apply digitChar_inj; [lia | exact Hd | exact Heq]).
      f_equal.
      change (String (digitChar first) (rest ++ render pieces))
        with (String (digitChar first) rest ++ render pieces).
      rewrite (replaceAll_plain _ _ _ _ Htext), IH; [reflexivity|].
      cbn [noDollar]. rewrite digitChar_noDollar by lia. exact Hrest.
Qed.

(** The placeholder of a parameter below the tenth is a dollar sign and
    one digit. *)
Lemma placeholder_digit (i : nat) :
  (i < 9)%nat -> placeholder i = String "$" (String (digitChar (S i)) "").
Proof.
  intros Hi.
  do 9 (destruct i as [|i]; [reflexivity|]). lia.
Qed.

Lemma placeholder_dollar (i : nat) :
  placeholder i = String "$" (pretty (Z.of_nat (S i))).
Proof. reflexivity. Qed.

(** Pieces without placeholder are a text without dollar sign. *)
Lemma render_plain (i n : nat) (pieces : list Piece) :
  (9 <= i)%nat ->
  Forall (wellFormed i n) pieces ->
  noDollar (render pieces) = true.
Proof.
  intros Hi Hall. induction Hall as [|piece pieces Hpiece _ IH]; [reflexivity|].
  cbn [render]. rewrite noDollar_append, IH, andb_true_r.
  destruct piece as [plain|first rest]; cbn [wellFormed] in Hpiece; [exact Hpiece|].
  lia.
Qed.

Section Placeholders.

Variable Q : SqlPlatform.

Lemma substitute_absent (parameters : list Value) (i : nat) (query : string) :
  Forall (fun v => noDollar (String_of Q v) = true) parameters ->
  noDollar query = true -> substitute Q i parameters query = query.
Proof.
  intros Htexts. revert i.
  induction Htexts as [|param rest Hparam _ IH]; intros i Hq; [reflexivity|].
  cbn [substitute]. rewrite placeholder_dollar.
  rewrite (replaceAll_absent _ _ _ Hparam Hq). now apply IH.
Qed.

(** The piece a placeholder has become when all parameters from number
    [i] on are written: the text of the parameter that its first digit
    names, followed by its other digits. *)
Definition answerFrom (i : nat) (parameters : list Value) (piece : Piece) : Piece :=
  match piece with
  | Placeholder first rest =>
      match parameters !! (first - S i)%nat with
      | Some param => Plain (String_of Q param ++ rest)
      | None => piece
      end
  | Plain _ => piece
  end.

Definition answer (parameters : list Value) (piece : Piece) : Piece :=
  answerFrom 0 parameters piece.

Lemma substitute_render (parameters : list Value) (i : nat) (pieces : list Piece) :
  Forall (fun v => noDollar (String_of Q v) = true) parameters ->
  Forall (wellFormed i (i + length parameters)) pieces ->
  substitute Q i parameters (render pieces) =
  render (map (answerFrom i parameters) pieces).
Proof.
  intros Htexts. revert i pieces.
  induction Htexts as [|param rest Hparam Hrest IH]; intros i pieces Hall.
  - cbn [substitute]. f_equal. symmetry.
    rewrite <- (map_id pieces) at 2. apply map_ext_Forall.
    eapply Forall_impl; [exact Hall|].
    intros [plain|first tail]; cbn [wellFormed answerFrom length]; [reflexivity|].
    intros [Hfirst [Hn _]]. lia.
  - cbn [substitute].
    destruct (Nat.lt_ge_cases i 9) as [Hi|Hi].
    + rewrite (placeholder_digit i Hi).
      rewrite (replaceAll_render i (i + length (param :: rest)) (S i) _ _
                 ltac:(lia) Hparam Hall).
      rewrite IH.
      * f_equal. rewrite map_map. apply map_ext_Forall.
        eapply Forall_impl; [exact Hall|].
        intros [plain|first tail]; cbn [wellFormed fillPiece answerFrom];
          [reflexivity|].
        intros [Hfirst [Hn Htail]].
        destruct (Nat.eqb_spec first (S i)) as [->|Hne]; cbn [answerFrom].
        -- now rewrite Nat.sub_diag.
        -- replace (first - S i)%nat with (S (first - S (S i))) by lia.
           reflexivity.
      * rewrite Forall_map. eapply Forall_impl; [exact Hall|].
        intros [plain|first tail]; cbn [wellFormed fillPiece]; [tauto|].
        intros [Hfirst [Hn Htail]].
        destruct (Nat.eqb_spec first (S i)) as [->|Hne]; cbn [wellFormed].
        -- now rewrite noDollar_append, Hparam, Htail.
        -- cbn [length] in Hn. repeat split; try lia. exact Htail.
    + pose proof (render_plain i _ pieces Hi Hall) as Hplain.
      rewrite placeholder_dollar, (replaceAll_absent _ _ _ Hparam Hplain).
      rewrite (substitute_absent _ _ _ Hrest Hplain).
      f_equal. symmetry. rewrite <- (map_id pieces) at 2. apply map_ext_Forall.
      eapply Forall_impl; [exact Hall|].
      intros [plain|first tail]; cbn [wellFormed answerFrom]; [reflexivity|].
      intros [Hfirst _]. lia.
Qed.

(** X19: parameters are written into the query as text, one [replaceAll]
    per parameter, from the first on; a placeholder is therefore answered
    by its first digit.  In a query whose placeholders are [$1] to [$n]
    between texts without dollar sign, [$1] to [$9] take the text of their
    parameter (unquoted), while [$10], [$11], ... take the text of the
    first parameter followed by [0], [1], ..., [$20] the text of the
    second followed by [0], and so on: the parameters from the tenth on
    are never written.  (Texts of parameters without dollar sign.) *)
Theorem placeholders_match_by_first_digit
    (parameters : list Value) (pieces : list Piece) :
  Forall (fun v => noDollar (String_of Q v) = true) parameters ->
  Forall (wellFormed 0 (length parameters)) pieces ->
  substitute Q 0 parameters (render pieces) =
  render (map (answer parameters) pieces).
Proof.
  intros Htexts Hall. now apply substitute_render.
Qed.

End Placeholders.

(** An example platform for the query builder: the text of a scalar
    parameter, an ABI reader that knows the [Transfer] event, and a pattern
    engine that finds and strips the quotes of a lower-case [from] clause
    (all that the examples need). *)
Definition exampleString (v : Value) : string :=
  match v with
  | VUndefined => "undefined"
  | VNull => "null"
  | VBool true => "true"
  | VBool false => "false"
  | VNumber n => pretty n
  | VBigInt n => pretty n
  | VString s => s
  | VArray _ => ""
  | VObject _ => "[object Object]"
  end.

Definition transferSignature : string :=
  "event Transfer(address indexed from, address indexed to, uint256 value)".

Definition exampleSql : SqlPlatform :=
  {| String_of := exampleString;
     parseAbiItem := fun signature =>
       if String.eqb signature transferSignature then inr transferItem
       else inl (BaseError "Unknown signature.");
     RegExp_new := fun _ _ =>
       inr {| regexp_test := fun query =>
                JsString.includes ("from " ++ JsString.quoted "transfer") query;
              regexp_replace := fun query _ =>
                replaceAll ("from " ++ JsString.quoted "transfer")
                  "from transfer" query |} |}.

(** A query with ten placeholders and its ten parameters. *)
Definition tenPieces : list Piece :=
  [ Plain "a in ("; Placeholder 1 ""; Plain ","; Placeholder 2 "";
    Plain ","; Placeholder 3 ""; Plain ","; Placeholder 4 "";
    Plain ","; Placeholder 5 ""; Plain ","; Placeholder 6 "";
    Plain ","; Placeholder 7 ""; Plain ","; Placeholder 8 "";
    Plain ","; Placeholder 9 ""; Plain ","; Placeholder 1 "0"; Plain ")" ].

Definition tenParameters : list Value :=
  [ VNumber 11; VNumber 12; VNumber 13; VNumber 14; VNumber 15;
    VNumber 16; VNumber 17; VNumber 18; VNumber 19; VNumber 20 ].

(** X19, witness: ten parameters; where the tenth should stand, the first
    stands, followed by [0]. *)
Lemma placeholders_match_by_first_digit_witness :
  render tenPieces = "a in ($1,$2,$3,$4,$5,$6,$7,$8,$9,$10)" /\
  substitute exampleSql 0 tenParameters (render tenPieces) =
    "a in (11,12,13,14,15,16,17,18,19,110)".
Proof.
  split; [reflexivity|].
  rewrite (placeholders_match_by_first_digit exampleSql tenParameters tenPieces).
  - reflexivity.
  - repeat constructor.
  - repeat constructor; cbn; lia.
Defined.

(** ** Signatures sent with a query *)

Section SignaturesSent.

Variable Q : SqlPlatform.

(** A signature that [parseAbiItem] reads. *)
Definition parses (signature : string) : Prop :=
  exists abiItem, parseAbiItem Q signature = inr abiItem.

(** The signatures [signatures] are sent for the text [text] and leave the
    query [query]: the first of them has a name, its table pattern is
    found in [text], and the others are sent for the text in which the
    matches of that pattern are replaced; when none is left, the query is
    the text. *)
Fixpoint sent (text : string) (signatures : list string) (query : string) : Prop :=
  match signatures with
  | [] => query = text
  | signature :: rest =>
      exists abiItem n regex,
        parseAbiItem Q signature = inr abiItem /\
        item_name abiItem = Some n /\
        RegExp_new Q (tablePattern (JsString.toLowerCase n)) "gi" = inr regex /\
        regexp_test regex text = true /\
        sent (regexp_replace regex text "$1 $2") rest query
  end.

Lemma selectSignatures_sent
    (configured : list string) (text : string) (signatures : list string)
    (query : string) (signatures' : list string) :
  selectSignatures Q configured text signatures = inr (query, signatures') ->
  exists kept,
    signatures' = (signatures ++ kept)%list /\
    sublist kept configured /\
    Forall parses configured /\
    sent text kept query.
Proof.
  revert text signatures.
  induction configured as [|signature rest IH]; intros text signatures Hsel.
  - cbn [selectSignatures] in Hsel. injection Hsel as <- <-.
    exists []. rewrite app_nil_r. repeat split; constructor.
  - cbn [selectSignatures] in Hsel.
    destruct (parseAbiItem Q signature) as [e|abiItem] eqn:Hparse;
      [discriminate|].
    assert (Hp : parses signature) by (now exists abiItem).
    destruct (item_name abiItem) as [n|] eqn:Hname.
    + destruct (RegExp_new Q (tablePattern (JsString.toLowerCase n)) "gi")
        as [e|regex] eqn:Hregex; [discriminate|].
      destruct (regexp_test regex text) eqn:Htest.
      * destruct (IH _ _ Hsel) as [kept [-> [Hsub [Hall Hkept]]]].
        exists (signature :: kept). rewrite <- app_assoc.
        split; [reflexivity|].
        split; [now apply sublist_skip|].
        split; [now constructor|].
        cbn [sent]. now exists abiItem, n, regex.
      * destruct (IH _ _ Hsel) as [kept [-> [Hsub [Hall Hkept]]]].
        exists kept. split; [reflexivity|].
        split; [now apply sublist_cons|].
        split; [now constructor | exact Hkept].
    + destruct (IH _ _ Hsel) as [kept [-> [Hsub [Hall Hkept]]]].
      exists kept. split; [reflexivity|].
      split; [now apply sublist_cons|].
      split; [now constructor | exact Hkept].
Qed.

(** X20: the signatures sent with a query are chosen from the signatures
    of the builder, in their order.  Each one sent has a name, and its
    table pattern was found in the query as it stood at its turn: the text
    with the parameters written in, after the replacements made for the
    signatures sent before it; the query sent is that text after the
    last replacement.  The query is prepared only when every signature of
    the builder can be read, whether the query names its table or not:
    one unreadable signature fails every query. *)
Theorem prepareQuery_sends_matching_signatures
    (store : BuilderStore) (sql : string) (parameters : list Value)
    (query : string) (signatures : list string) :
  prepareQuery Q store sql parameters = inr (query, signatures) ->
  sublist signatures (store_signatures store) /\
  Forall parses (store_signatures store) /\
  sent (substitute Q 0 parameters sql) signatures query.
Proof.
  unfold prepareQuery. intros Hsel.
  destruct (selectSignatures_sent _ _ _ _ _ Hsel) as [kept [-> [Hsub [Hall Hkept]]]].
  now rewrite app_nil_l.
Qed.

End SignaturesSent.

(** X20, witness: the transfer signature and a query that names its
    table between quotes. *)
Lemma prepareQuery_sends_matching_signatures_witness :
  let store := builder_from [WithSignatures [transferSignature]] in
  let sql := "select * from " ++ JsString.quoted "transfer" in
  prepareQuery exampleSql store sql [] =
    inr ("select * from transfer", [transferSignature]) /\
  sublist [transferSignature] (store_signatures store) /\
  Forall (parses exampleSql) (store_signatures store) /\
  sent exampleSql (substitute exampleSql 0 [] sql) [transferSignature]
    "select * from transfer".
Proof.
  cbv zeta.
  assert (Hrun : prepareQuery exampleSql
                   (builder_from [WithSignatures [transferSignature]])
                   ("select * from " ++ JsString.quoted "transfer") [] =
                 inr ("select * from transfer", [transferSignature]))
    by (vm_compute; reflexivity).
  split; [exact Hrun|].
  exact (prepareQuery_sends_matching_signatures exampleSql _ _ _ _ _ Hrun).
Defined.
